(** * Analog operations of qadence: generator composition and parameter algebra

    A shallow embedding of [qadence/analog/operations.py]: the interaction
    operation [AnalogInteraction], the generic drive [AnalogDrive] and the
    three rotations [AnalogRX], [AnalogRY], [AnalogRZ] derived from it.

    Scalars are symbolic expression trees that are composed and never
    evaluated by the constructors; a denotation into the real numbers is
    given separately and is used only to state numeric facts. *)

From Stdlib Require Import List String Bool ZArith QArith Reals Lra Lia.
From Stdlib Require Import Permutation.
Import ListNotations.

Set Warnings "-register-all".

Local Open Scope string_scope.

(* ------------------------------------------------------------------ *)
(** ** Exceptions and the result monad *)

Inductive exception : Type :=
| ValueError (msg : string)
| ZeroDivisionError
| AttributeError (attr : string)
| KeyError (role : string).

Inductive result (A : Type) : Type :=
| Ok (a : A)
| Raise (e : exception).

Arguments Ok {A} a.
Arguments Raise {A} e.

Definition bind {A B : Type} (c : result A) (k : A -> result B) : result B :=
  match c with
  | Ok a => k a
  | Raise e => Raise e
  end.

Definition fmap {A B : Type} (f : A -> B) (c : result A) : result B :=
  bind c (fun a => Ok (f a)).

Notation "x <- c ;; k" := (bind c (fun x => k))
  (at level 61, c at next level, right associativity).

(* ------------------------------------------------------------------ *)
(** ** Numeric literals

    A numeric literal is a number of the form [a + b * pi] with rational
    [a] and [b]: the Python numbers of the source are the rationals
    ([b = 0]), and the only other literals it writes are [PI] and
    [-PI / 2]. *)

Record number : Type := mkNum { rat_part : Q; pi_part : Q }.

Definition of_Q (q : Q) : number := mkNum q 0.
Definition of_Z (z : Z) : number := of_Q (inject_Z z).

(** Modelled from the spec: the constant [PI] of [qadence.types], which is
    not among the sources; the spec reads it as the number pi. *)
Definition PI : number := mkNum 0 1.

Definition num_neg (n : number) : number :=
  mkNum (Qopp (rat_part n)) (Qopp (pi_part n)).

(** Python [n / d] for a number [n] and an integer literal [d]; the
    quotient is kept in lowest terms. *)
Definition num_div_int (n : number) (d : Z) : result number :=
  if Z.eqb d 0 then Raise ZeroDivisionError
  else Ok (mkNum (Qred (Qdiv (rat_part n) (inject_Z d)))
                 (Qred (Qdiv (pi_part n) (inject_Z d)))).

(** Python [n == 0] on a number. *)
Definition num_is_zero (n : number) : bool :=
  Qeq_bool (rat_part n) 0 && Qeq_bool (pi_part n) 0.

(* ------------------------------------------------------------------ *)
(** ** Parameter algebra: scalar expressions *)

Inductive unop : Type := Neg | Sqrt | Sin | Cos.
Inductive binop : Type := Add | Sub | Mul | Div | Pow.

(** Modelled from the spec: the scalar expressions of [qadence.parameters]
    and sympy, which are not among the sources. A scalar is a constant, a
    named free variable, or a compound of other scalars; building one never
    evaluates or simplifies it. *)
Inductive expr : Type :=
| Constant (value : number)
| FreeVariable (name : string)
| Unary (op : unop) (operand : expr)
| Binary (op : binop) (lhs rhs : expr).

(** The source's [TParameter]: a Python number, a name, or an expression. *)
Inductive TParameter : Type :=
| TNumber (n : number)
| TName (s : string)
| TBasic (e : expr).

(** Modelled from the spec: [Parameter(p)] of [qadence.parameters]. A number
    becomes a constant, a name a free variable, an expression is itself. *)
Definition Parameter_ (p : TParameter) : expr :=
  match p with
  | TNumber n => Constant n
  | TName s => FreeVariable s
  | TBasic e => e
  end.

(** Modelled from the spec: the equality-to-zero test [p == 0]. It is exact
    on a literal constant and false on everything else: a name or a compound
    expression is never assumed to be zero. *)
Definition eq_zero (p : TParameter) : bool :=
  match p with
  | TNumber n => num_is_zero n
  | TName _ => false
  | TBasic (Constant n) => num_is_zero n
  | TBasic _ => false
  end.

Definition lit (z : Z) : expr := Constant (of_Z z).

Module sympy.

Definition sqrt (e : expr) : expr := Unary Sqrt e.
Definition sin (e : expr) : expr := Unary Sin e.
Definition cos (e : expr) : expr := Unary Cos e.

Definition neg (e : expr) : expr := Unary Neg e.
Definition add (a b : expr) : expr := Binary Add a b.
Definition sub (a b : expr) : expr := Binary Sub a b.
Definition mul (a b : expr) : expr := Binary Mul a b.
Definition pow (a b : expr) : expr := Binary Pow a b.

(** Modelled from the spec: division signals the undefined-division error
    when the denominator is the literal constant zero, and only then. *)
Definition div (a b : expr) : result expr :=
  match b with
  | Constant n => if num_is_zero n then Raise ZeroDivisionError
                  else Ok (Binary Div a b)
  | _ => Ok (Binary Div a b)
  end.

End sympy.

Declare Scope sym_scope.
Delimit Scope sym_scope with sym.
Bind Scope sym_scope with expr.
Infix "+" := sympy.add : sym_scope.
Infix "-" := sympy.sub : sym_scope.
Infix "*" := sympy.mul : sym_scope.
Infix "/" := sympy.div : sym_scope.
Infix "**" := sympy.pow (at level 30, right associativity) : sym_scope.

(* ------------------------------------------------------------------ *)
(** ** Denotation of scalars in the real numbers *)

Definition num2R (n : number) : R :=
  (Q2R (rat_part n) + Q2R (pi_part n) * Rtrigo1.PI)%R.

(** A literal that is a natural number, as an exponent. *)
Definition num_as_nat (n : number) : option nat :=
  if Qeq_bool (pi_part n) 0 then
    let q := Qred (rat_part n) in
    if Pos.eqb (Qden q) 1 && Z.leb 0 (Qnum q) then Some (Z.to_nat (Qnum q))
    else None
  else None.

Definition eval_unop (op : unop) (x : R) : R :=
  match op with
  | Neg => Ropp x
  | Sqrt => R_sqrt.sqrt x
  | Sin => Rtrigo_def.sin x
  | Cos => Rtrigo_def.cos x
  end.

Definition eval_binop (op : binop) (x y : R) : R :=
  match op with
  | Add => Rplus x y
  | Sub => Rminus x y
  | Mul => Rmult x y
  | Div => Rdiv x y
  | Pow => Rpower x y
  end.

Definition env : Type := string -> R.

(** The value of an expression once every free variable is given a value.
    A power with a natural-number literal exponent is a repeated product. *)
Fixpoint eval (rho : env) (e : expr) : R :=
  match e with
  | Constant n => num2R n
  | FreeVariable x => rho x
  | Unary op a => eval_unop op (eval rho a)
  | Binary op a b =>
      match op, b with
      | Pow, Constant n =>
          match num_as_nat n with
          | Some k => pow (eval rho a) k
          | None => Rpower (eval rho a) (num2R n)
          end
      | _, _ => eval_binop op (eval rho a) (eval rho b)
      end
  end.

(* ------------------------------------------------------------------ *)
(** ** Blocks: operator terms and their sums *)

(** Modelled from the spec: the blocks of [qadence.blocks] and
    [qadence.operations], which are not among the sources. A block is a
    single-qubit operator [X], [Y] or [N] on a qubit, an opaque term supplied
    from outside (the interaction and pattern hamiltonians are sums of
    such), a block scaled by a scalar, or a sum or difference of blocks. *)
Inductive block : Type :=
| X (i : nat)
| Y (i : nat)
| N (i : nat)
| Opaque (label : string)
| Scale (c : expr) (b : block)
| Plus (a b : block)
| Minus (a b : block)
| AddBlock (bs : list block).

(** [add(b for ...)] of [qadence.blocks]: the sum of the blocks, in order. *)
Definition add (bs : list block) : block := AddBlock bs.

Declare Scope block_scope.
Delimit Scope block_scope with blk.
Bind Scope block_scope with block.
Infix "+" := Plus : block_scope.
Infix "-" := Minus : block_scope.
Infix "*" := Scale : block_scope.

(** *** Additive semantics

    The operators a generator is built from span a real vector space: a
    generator denotes the family of the coefficients of its operators. *)

Inductive atom : Type :=
| AX (i : nat)
| AY (i : nat)
| AN (i : nat)
| AOpaque (label : string).

Definition atom_eqb (a b : atom) : bool :=
  match a, b with
  | AX i, AX j | AY i, AY j | AN i, AN j => Nat.eqb i j
  | AOpaque s, AOpaque t => String.eqb s t
  | _, _ => false
  end.

Definition vec : Type := atom -> R.

Definition vzero : vec := fun _ => 0%R.
Definition vunit (b : atom) : vec := fun a => if atom_eqb a b then 1%R else 0%R.
Definition vadd (u v : vec) : vec := fun a => (u a + v a)%R.
Definition vsub (u v : vec) : vec := fun a => (u a - v a)%R.
Definition vscale (c : R) (u : vec) : vec := fun a => (c * u a)%R.
Definition vsum (us : list vec) : vec := fold_right vadd vzero us.

(** Two generators with the same coefficients are the same hamiltonian. *)
Definition veq (u v : vec) : Prop := forall a, u a = v a.

Infix "==v" := veq (at level 70, no associativity).

Fixpoint denote (rho : env) (b : block) : vec :=
  match b with
  | X i => vunit (AX i)
  | Y i => vunit (AY i)
  | N i => vunit (AN i)
  | Opaque s => vunit (AOpaque s)
  | Scale c b => vscale (eval rho c) (denote rho b)
  | Plus a b => vadd (denote rho a) (denote rho b)
  | Minus a b => vsub (denote rho a) (denote rho b)
  | AddBlock bs =>
      (fix go (l : list block) : vec :=
         match l with
         | [] => vzero
         | b :: l' => vadd (denote rho b) (go l')
         end) bs
  end.

(* ------------------------------------------------------------------ *)
(** ** Parameter maps *)

(** Modelled from the spec: [ParamMap] of [qadence.parameters], a named,
    ordered mapping from role names to scalars; looking up a role that was
    never set is an error. *)
Definition ParamMap : Type := list (string * expr).

Fixpoint ParamMap_get (role : string) (m : ParamMap) : result expr :=
  match m with
  | [] => Raise (KeyError role)
  | (r, e) :: m' => if String.eqb r role then Ok e else ParamMap_get role m'
  end.

(* ------------------------------------------------------------------ *)
(** ** Operation instances *)

(** The attributes of an operation instance; an attribute is [None] until a
    constructor assigns it. [attr_generator] and [attr_parameter] are what
    the time-evolution primitive was given. *)
Record Instance : Type := mkInstance {
  attr_add_pattern : option bool;
  attr_duration : option expr;
  attr_alpha : option expr;
  attr_generator : option block;
  attr_parameter : option expr;
  attr_parameters : option ParamMap
}.

Definition object : Instance := mkInstance None None None None None None.

Definition set_add_pattern (self : Instance) (v : bool) : Instance :=
  mkInstance (Some v) (attr_duration self) (attr_alpha self)
             (attr_generator self) (attr_parameter self) (attr_parameters self).

Definition set_duration (self : Instance) (v : expr) : Instance :=
  mkInstance (attr_add_pattern self) (Some v) (attr_alpha self)
             (attr_generator self) (attr_parameter self) (attr_parameters self).

Definition set_alpha (self : Instance) (v : expr) : Instance :=
  mkInstance (attr_add_pattern self) (attr_duration self) (Some v)
             (attr_generator self) (attr_parameter self) (attr_parameters self).

Definition set_parameters (self : Instance) (v : ParamMap) : Instance :=
  mkInstance (attr_add_pattern self) (attr_duration self) (attr_alpha self)
             (attr_generator self) (attr_parameter self) (Some v).

Definition getattr {A : Type} (name : string) (a : option A) : result A :=
  match a with
  | Some v => Ok v
  | None => Raise (AttributeError name)
  end.

(** Modelled from the spec: [HamEvo.__init__] of [qadence.operations], the
    time-evolution primitive, which is not among the sources. It accepts a
    generator and a scaled duration and keeps both. *)
Definition HamEvo_init (self : Instance) (generator : block) (parameter : expr)
  : Instance :=
  mkInstance (attr_add_pattern self) (attr_duration self) (attr_alpha self)
             (Some generator) (Some parameter) (attr_parameters self).

(** An omitted keyword argument takes its default. *)
Definition or_default {A : Type} (d : A) (a : option A) : A :=
  match a with
  | Some v => v
  | None => d
  end.

(* ------------------------------------------------------------------ *)
(** ** The analog operations *)

Section Operations.

(** The register and the two hamiltonian routines of
    [qadence.analog.hamiltonian_terms] are external: any register type with
    its nodes, any interaction term, and a pattern term that may be
    absent. *)
Variable Register : Type.
Variable nodes : Register -> list nat.
Variable rydberg_interaction_hamiltonian : Register -> block.
Variable rydberg_pattern_hamiltonian : Register -> option block.

Definition invalid_drive : string :=
  "Parameters omega and delta cannot both be 0.".

(** [AnalogInteraction.__init__] *)
Definition AnalogInteraction_init (self : Instance) (register : Register)
  (duration : TParameter) (add_pattern : bool) : result Instance :=
  let self := set_add_pattern self add_pattern in
  let self := set_duration self (Parameter_ duration) in
  let generator := rydberg_interaction_hamiltonian register in
  let generator_pattern := rydberg_pattern_hamiltonian register in
  let generator :=
    match add_pattern, generator_pattern with
    | true, Some pattern => (generator + pattern)%blk
    | _, _ => generator
    end in
  d <- getattr "duration" (attr_duration self) ;;
  scaled <- (d / lit 1000)%sym ;;
  let self := HamEvo_init self generator scaled in
  d <- getattr "duration" (attr_duration self) ;;
  parameter <- (d / lit 1000)%sym ;;
  duration' <- getattr "duration" (attr_duration self) ;;
  Ok (set_parameters self [("parameter", parameter); ("duration", duration')]).

(** [AnalogDrive.__init__] *)
Definition AnalogDrive_init (self : Instance) (register : Register)
  (duration omega delta phase : TParameter)
  (qubit_support : option (list nat)) (add_pattern : bool) : result Instance :=
  let self := set_add_pattern self add_pattern in
  let self := set_duration self (Parameter_ duration) in
  if eq_zero omega && eq_zero delta then Raise (ValueError invalid_drive)
  else
    let qubit_support :=
      match qubit_support with
      | None => nodes register
      | Some q => q
      end in
    let omega := Parameter_ omega in
    let delta := Parameter_ delta in
    let phase := Parameter_ phase in
    half <- (omega / lit 2)%sym ;;
    let x_terms :=
      (half * add (map (fun i => sympy.cos phase * X i) qubit_support))%blk in
    half <- (omega / lit 2)%sym ;;
    let y_terms :=
      (half * add (map (fun i => sympy.sin phase * Y i) qubit_support))%blk in
    let n_terms := (delta * add (map (fun i => N i) qubit_support))%blk in
    let generator_interaction := rydberg_interaction_hamiltonian register in
    let generator :=
      (x_terms - y_terms - n_terms + generator_interaction)%blk in
    let generator_pattern := rydberg_pattern_hamiltonian register in
    let generator :=
      match add_pattern, generator_pattern with
      | true, Some pattern => (generator + pattern)%blk
      | _, _ => generator
      end in
    d <- getattr "duration" (attr_duration self) ;;
    scaled <- (d / lit 1000)%sym ;;
    let self := HamEvo_init self generator scaled in
    let h_norm := sympy.sqrt (omega ** lit 2 + delta ** lit 2)%sym in
    d <- getattr "duration" (attr_duration self) ;;
    alpha <- ((d * h_norm)%sym / lit 1000)%sym ;;
    d <- getattr "duration" (attr_duration self) ;;
    parameter <- (d / lit 1000)%sym ;;
    duration' <- getattr "duration" (attr_duration self) ;;
    Ok (set_parameters self
          [("parameter", parameter); ("duration", duration');
           ("alpha", alpha); ("omega", omega); ("delta", delta);
           ("phase", phase); ("h_norm", h_norm)]).

(** [AnalogRX.__init__] *)
Definition AnalogRX_init (self : Instance) (register : Register)
  (angle : TParameter) (qubit_support : option (list nat))
  (add_pattern : bool) : result Instance :=
  let self := set_alpha self (Parameter_ angle) in
  let omega := TNumber PI in
  let delta := TNumber (of_Z 0) in
  let phase := TNumber (of_Z 0) in
  a <- getattr "alpha" (attr_alpha self) ;;
  q <- (a / Parameter_ omega)%sym ;;
  AnalogDrive_init self register (TBasic (q * lit 1000)%sym)
    omega delta phase qubit_support add_pattern.

(** [AnalogRY.__init__] *)
Definition AnalogRY_init (self : Instance) (register : Register)
  (angle : TParameter) (qubit_support : option (list nat))
  (add_pattern : bool) : result Instance :=
  let self := set_alpha self (Parameter_ angle) in
  let omega := TNumber PI in
  let delta := TNumber (of_Z 0) in
  phase <- fmap TNumber (num_div_int (num_neg PI) 2) ;;
  a <- getattr "alpha" (attr_alpha self) ;;
  q <- (a / Parameter_ omega)%sym ;;
  AnalogDrive_init self register (TBasic (q * lit 1000)%sym)
    omega delta phase qubit_support add_pattern.

(** [AnalogRZ.__init__] *)
Definition AnalogRZ_init (self : Instance) (register : Register)
  (angle : TParameter) (qubit_support : option (list nat))
  (add_pattern : bool) : result Instance :=
  let self := set_alpha self (Parameter_ angle) in
  let omega := TNumber (of_Z 0) in
  let delta := TNumber PI in
  let phase := TNumber (of_Z 0) in
  a <- getattr "alpha" (attr_alpha self) ;;
  q <- (a / Parameter_ delta)%sym ;;
  AnalogDrive_init self register (TBasic (q * lit 1000)%sym)
    omega delta phase qubit_support add_pattern.

(** *** Calling the classes

    A call builds a fresh instance and initialises it; a keyword argument
    left out ([None]) takes the default of the signature. *)

Definition AnalogInteraction (register : Register) (duration : TParameter)
  (add_pattern : option bool) : result Instance :=
  AnalogInteraction_init object register duration (or_default true add_pattern).

Definition AnalogDrive (register : Register) (duration omega delta : TParameter)
  (phase : option TParameter) (qubit_support : option (list nat))
  (add_pattern : option bool) : result Instance :=
  AnalogDrive_init object register duration omega delta
    (or_default (TNumber (of_Z 0)) phase) qubit_support
    (or_default true add_pattern).

Definition AnalogRX (register : Register) (angle : TParameter)
  (qubit_support : option (list nat)) (add_pattern : option bool)
  : result Instance :=
  AnalogRX_init object register angle qubit_support (or_default true add_pattern).

Definition AnalogRY (register : Register) (angle : TParameter)
  (qubit_support : option (list nat)) (add_pattern : option bool)
  : result Instance :=
  AnalogRY_init object register angle qubit_support (or_default true add_pattern).

Definition AnalogRZ (register : Register) (angle : TParameter)
  (qubit_support : option (list nat)) (add_pattern : option bool)
  : result Instance :=
  AnalogRZ_init object register angle qubit_support (or_default true add_pattern).

(* ------------------------------------------------------------------ *)
(** ** What the specification says, in its own words *)

(** A literal constant zero: a number, or a constant expression, equal to 0. *)
Definition literal_zero (p : TParameter) : Prop :=
  exists n, (p = TNumber n \/ p = TBasic (Constant n))
            /\ (rat_part n == 0)%Q /\ (pi_part n == 0)%Q.

(** The pattern term, when one exists for the register and its inclusion is
    requested. *)
Definition pattern_term (register : Register) (add_pattern : bool)
  : option block :=
  if add_pattern then rydberg_pattern_hamiltonian register else None.

(** The drive hamiltonian [H = (Omega/2)(cos phi X - sin phi Y) - Delta N
    + H_int [+ H_pattern]]: for each qubit of the support the three terms,
    then the interaction term, then the pattern term if any. *)
Definition drive_hamiltonian (register : Register) (omega delta phase : expr)
  (qubit_support : list nat) (add_pattern : bool) : block :=
  let half := Binary Div omega (lit 2) in
  let per_qubit i :=
    ((half * sympy.cos phase)%sym * X i
     - (half * sympy.sin phase)%sym * Y i
     - delta * N i)%blk in
  let drive := add (map per_qubit qubit_support) in
  let h := (drive + rydberg_interaction_hamiltonian register)%blk in
  match pattern_term register add_pattern with
  | Some pattern => (h + pattern)%blk
  | None => h
  end.

(** The scaled duration: the requested duration divided by 1000. *)
Definition scaled (duration : expr) : expr := Binary Div duration (lit 1000).

(** What an operation handed to the time-evolution primitive, and what its
    parameter map holds under a role. *)
Definition handed_to_primitive (op : Instance) (e : expr) : Prop :=
  attr_parameter op = Some e.

Definition holds_role (op : Instance) (role : string) (e : expr) : Prop :=
  exists m, attr_parameters op = Some m /\ ParamMap_get role m = Ok e.

Definition has_generator (op : Instance) (g : block) : Prop :=
  attr_generator op = Some g.

(* ------------------------------------------------------------------ *)
(** ** Basic facts about literals and the algebra *)

Lemma num2R_of_Z (z : Z) : num2R (of_Z z) = IZR z.
Proof.
  unfold num2R, of_Z, of_Q, Q2R; simpl. lra.
Qed.

Lemma num2R_PI : num2R PI = Rtrigo1.PI.
Proof.
  unfold num2R, PI, Q2R; simpl. lra.
Qed.

Lemma eval_lit (rho : env) (z : Z) : eval rho (lit z) = IZR z.
Proof. apply num2R_of_Z. Qed.

Lemma num_is_zero_of_Z (z : Z) : num_is_zero (of_Z z) = Z.eqb z 0.
Proof.
  unfold num_is_zero, of_Z, of_Q, Qeq_bool; simpl.
  rewrite Z.mul_1_r, andb_true_r. reflexivity.
Qed.

Lemma div_lit (a : expr) (z : Z) :
  z <> 0%Z -> sympy.div a (lit z) = Ok (Binary Div a (lit z)).
Proof.
  intros Hz. unfold sympy.div, lit. rewrite num_is_zero_of_Z.
  apply Z.eqb_neq in Hz. rewrite Hz. reflexivity.
Qed.

Lemma div_PI (a : expr) :
  sympy.div a (Constant PI) = Ok (Binary Div a (Constant PI)).
Proof. reflexivity. Qed.

Lemma eval_square (rho : env) (a : expr) :
  eval rho (a ** lit 2)%sym = Rsqr (eval rho a).
Proof.
  simpl. unfold Rsqr. lra.
Qed.

Lemma eval_div (rho : env) (a b : expr) :
  eval rho (Binary Div a b) = (eval rho a / eval rho b)%R.
Proof. destruct b; reflexivity. Qed.

Lemma eval_mul (rho : env) (a b : expr) :
  eval rho (a * b)%sym = (eval rho a * eval rho b)%R.
Proof. destruct b; reflexivity. Qed.

Lemma eval_add (rho : env) (a b : expr) :
  eval rho (a + b)%sym = (eval rho a + eval rho b)%R.
Proof. destruct b; reflexivity. Qed.

(* ------------------------------------------------------------------ *)
(** ** The constructors, step by step *)

(** The generator [AnalogDrive.__init__] composes, as the code writes it. *)
Definition drive_generator (register : Register) (omega delta phase : expr)
  (qubit_support : list nat) (add_pattern : bool) : block :=
  let half := Binary Div omega (lit 2) in
  let g :=
    (half * add (map (fun i => sympy.cos phase * X i) qubit_support)
     - half * add (map (fun i => sympy.sin phase * Y i) qubit_support)
     - delta * add (map (fun i => N i) qubit_support)
     + rydberg_interaction_hamiltonian register)%blk in
  match add_pattern, rydberg_pattern_hamiltonian register with
  | true, Some pattern => (g + pattern)%blk
  | _, _ => g
  end.

Definition support_of (register : Register) (qubit_support : option (list nat))
  : list nat :=
  match qubit_support with
  | None => nodes register
  | Some q => q
  end.

Definition h_norm_of (omega delta : expr) : expr :=
  sympy.sqrt (omega ** lit 2 + delta ** lit 2)%sym.

Definition alpha_of (duration omega delta : expr) : expr :=
  Binary Div (duration * h_norm_of omega delta)%sym (lit 1000).

Lemma AnalogDrive_init_raises (self : Instance) (register : Register)
  (duration omega delta phase : TParameter)
  (qubit_support : option (list nat)) (add_pattern : bool) :
  eq_zero omega && eq_zero delta = true ->
  AnalogDrive_init self register duration omega delta phase qubit_support
    add_pattern = Raise (ValueError invalid_drive).
Proof.
  intros H. unfold AnalogDrive_init. rewrite H. reflexivity.
Qed.

Lemma AnalogDrive_init_Ok (self : Instance) (register : Register)
  (duration omega delta phase : TParameter)
  (qubit_support : option (list nat)) (add_pattern : bool) :
  eq_zero omega && eq_zero delta = false ->
  AnalogDrive_init self register duration omega delta phase qubit_support
    add_pattern =
  Ok (mkInstance (Some add_pattern) (Some (Parameter_ duration))
        (attr_alpha self)
        (Some (drive_generator register (Parameter_ omega) (Parameter_ delta)
                 (Parameter_ phase) (support_of register qubit_support)
                 add_pattern))
        (Some (scaled (Parameter_ duration)))
        (Some [("parameter", scaled (Parameter_ duration));
               ("duration", Parameter_ duration);
               ("alpha", alpha_of (Parameter_ duration) (Parameter_ omega)
                           (Parameter_ delta));
               ("omega", Parameter_ omega);
               ("delta", Parameter_ delta);
               ("phase", Parameter_ phase);
               ("h_norm", h_norm_of (Parameter_ omega) (Parameter_ delta))])).
Proof.
  intros H. unfold AnalogDrive_init. rewrite H.
  cbn [set_add_pattern set_duration attr_duration getattr bind].
  rewrite !div_lit by discriminate.
  cbn [bind]. unfold drive_generator, support_of.
  destruct add_pattern, (rydberg_pattern_hamiltonian register); reflexivity.
Qed.

(* ------------------------------------------------------------------ *)
(** ** Linearity of the additive semantics *)

Lemma denote_add (rho : env) (bs : list block) :
  denote rho (add bs) = vsum (map (denote rho) bs).
Proof.
  unfold add, vsum. induction bs as [|b bs IH]; simpl.
  - reflexivity.
  - f_equal. exact IH.
Qed.

Lemma vsum_map_cons {A : Type} (f : A -> vec) (x : A) (xs : list A) (a : atom) :
  vsum (map f (x :: xs)) a = (f x a + vsum (map f xs) a)%R.
Proof. reflexivity. Qed.

(** Per operator, the three sums the code scales separately add up to the
    sum of the per-qubit terms. *)
Lemma drive_sum_regroup (rho : env) (half delta phase : expr)
  (qs : list nat) (a : atom) :
  (eval rho half
     * vsum (map (fun i => denote rho (sympy.cos phase * X i)%blk) qs) a
   - eval rho half
     * vsum (map (fun i => denote rho (sympy.sin phase * Y i)%blk) qs) a
   - eval rho delta * vsum (map (fun i => denote rho (N i)) qs) a)%R
  = vsum (map (fun i => denote rho
                 ((half * sympy.cos phase)%sym * X i
                  - (half * sympy.sin phase)%sym * Y i
                  - delta * N i)%blk) qs) a.
Proof.
  induction qs as [|i qs IH].
  - simpl. unfold vzero. ring.
  - rewrite !vsum_map_cons, <- IH.
    cbn [denote]. unfold vsub, vscale. rewrite !eval_mul. ring.
Qed.

Lemma denote_Plus (rho : env) (x y : block) :
  denote rho (x + y)%blk = vadd (denote rho x) (denote rho y).
Proof. reflexivity. Qed.

Lemma denote_Minus (rho : env) (x y : block) :
  denote rho (x - y)%blk = vsub (denote rho x) (denote rho y).
Proof. reflexivity. Qed.

Lemma denote_Scale (rho : env) (c : expr) (x : block) :
  denote rho (c * x)%blk = vscale (eval rho c) (denote rho x).
Proof. reflexivity. Qed.

Ltac denote_sums :=
  rewrite ?denote_Plus, ?denote_Minus, ?denote_Scale, ?denote_add, ?map_map;
  unfold vadd, vsub, vscale.

(** The generator the code composes and the drive hamiltonian of the
    specification have the same coefficients. *)
Lemma drive_generator_refines (rho : env) (register : Register)
  (omega delta phase : expr) (qs : list nat) (add_pattern : bool) :
  denote rho (drive_generator register omega delta phase qs add_pattern)
  ==v denote rho (drive_hamiltonian register omega delta phase qs add_pattern).
Proof.
  intros a. unfold drive_generator, drive_hamiltonian, pattern_term.
  cbv zeta.
  destruct add_pattern, (rydberg_pattern_hamiltonian register);
    denote_sums; rewrite <- drive_sum_regroup; reflexivity.
Qed.

(* ------------------------------------------------------------------ *)
(** ** The zero test *)

Lemma num_is_zero_iff (n : number) :
  num_is_zero n = true <-> (rat_part n == 0)%Q /\ (pi_part n == 0)%Q.
Proof.
  unfold num_is_zero. rewrite andb_true_iff, !Qeq_bool_iff. reflexivity.
Qed.

Lemma eq_zero_iff (p : TParameter) : eq_zero p = true <-> literal_zero p.
Proof.
  unfold literal_zero. split.
  - destruct p as [n| |e]; simpl; try discriminate.
    + intros H. exists n. split; [now left | now apply num_is_zero_iff].
    + destruct e as [n| | |]; try discriminate.
      intros H. exists n. split; [now right | now apply num_is_zero_iff].
  - intros [n [[->| ->] H]]; simpl; now apply num_is_zero_iff.
Qed.

Lemma jointly_zero_iff (omega delta : TParameter) :
  eq_zero omega && eq_zero delta = true
  <-> literal_zero omega /\ literal_zero delta.
Proof.
  rewrite andb_true_iff, !eq_zero_iff. reflexivity.
Qed.

Lemma not_jointly_zero (omega delta : TParameter) :
  ~ (literal_zero omega /\ literal_zero delta) ->
  eq_zero omega && eq_zero delta = false.
Proof.
  intros H. apply not_true_is_false. intros E. apply H.
  now apply jointly_zero_iff.
Qed.

(** A free variable or a compound expression, as opposed to a literal. *)
Definition free_or_compound (p : TParameter) : Prop :=
  match p with
  | TNumber _ => False
  | TName _ => True
  | TBasic (Constant _) => False
  | TBasic _ => True
  end.

Lemma free_or_compound_not_zero (p : TParameter) :
  free_or_compound p -> eq_zero p = false.
Proof.
  destruct p as [n| |e]; simpl; try tauto.
  destruct e; simpl; tauto.
Qed.

(* ------------------------------------------------------------------ *)
(** ** The generic drive *)

(** C1: for every register, duration, omega, delta, phase and non-empty
    qubit support, the generic drive is built (omega and delta not being
    jointly the literal zero) and its generator is the drive hamiltonian:
    the sum over the qubits [i] of the support of
    [(omega/2) cos(phase) X(i) - (omega/2) sin(phase) Y(i) - delta N(i)],
    plus the interaction term, plus the pattern term only when the inclusion
    flag is set and a pattern exists. *)
Theorem drive_generator_is_drive_hamiltonian (register : Register)
  (duration omega delta phase : TParameter) (qs : list nat)
  (add_pattern : bool) :
  qs <> [] ->
  ~ (literal_zero omega /\ literal_zero delta) ->
  exists op g,
    AnalogDrive register duration omega delta (Some phase) (Some qs)
      (Some add_pattern) = Ok op
    /\ has_generator op g
    /\ forall rho,
         denote rho g
         ==v denote rho (drive_hamiltonian register (Parameter_ omega)
                           (Parameter_ delta) (Parameter_ phase) qs
                           add_pattern).
Proof.
  intros _ Hnz. apply not_jointly_zero in Hnz.
  unfold AnalogDrive. cbn [or_default].
  rewrite (AnalogDrive_init_Ok _ _ _ _ _ _ _ _ Hnz).
  eexists. eexists. split; [reflexivity|]. split; [reflexivity|].
  intros rho. apply drive_generator_refines.
Qed.

(** C2: building the generic drive with omega and delta both the literal
    constant zero fails with the invalid-drive error, whose message is
    "Parameters omega and delta cannot both be 0."; for every other pair,
    among them every pair with a free or compound expression on either
    side, the construction succeeds. *)
Theorem drive_rejects_exactly_the_zero_drive (register : Register)
  (duration omega delta : TParameter) (phase : option TParameter)
  (qubit_support : option (list nat)) (add_pattern : option bool) :
  (literal_zero omega /\ literal_zero delta ->
   AnalogDrive register duration omega delta phase qubit_support add_pattern
   = Raise (ValueError "Parameters omega and delta cannot both be 0."))
  /\ (~ (literal_zero omega /\ literal_zero delta) ->
      exists op,
        AnalogDrive register duration omega delta phase qubit_support
          add_pattern = Ok op)
  /\ (free_or_compound omega \/ free_or_compound delta ->
      exists op,
        AnalogDrive register duration omega delta phase qubit_support
          add_pattern = Ok op).
Proof.
  unfold AnalogDrive. split; [|split].
  - intros H. apply jointly_zero_iff in H.
    now apply AnalogDrive_init_raises.
  - intros H. apply not_jointly_zero in H.
    rewrite (AnalogDrive_init_Ok _ _ _ _ _ _ _ _ H). eexists. reflexivity.
  - intros H.
    assert (Hnz : eq_zero omega && eq_zero delta = false).
    { destruct H as [H|H]; apply free_or_compound_not_zero in H; rewrite H.
      - reflexivity.
      - apply andb_false_r. }
    rewrite (AnalogDrive_init_Ok _ _ _ _ _ _ _ _ Hnz). eexists. reflexivity.
Qed.

Lemma AnalogDrive_init_inv (self : Instance) (register : Register)
  (duration omega delta phase : TParameter)
  (qubit_support : option (list nat)) (add_pattern : bool) (op : Instance) :
  AnalogDrive_init self register duration omega delta phase qubit_support
    add_pattern = Ok op ->
  eq_zero omega && eq_zero delta = false.
Proof.
  intros H. destruct (eq_zero omega && eq_zero delta) eqn:E; [|reflexivity].
  rewrite (AnalogDrive_init_raises _ _ _ _ _ _ _ _ E) in H. discriminate H.
Qed.

Lemma eval_h_norm (rho : env) (omega delta : expr) :
  eval rho (h_norm_of omega delta)
  = R_sqrt.sqrt (Rsqr (eval rho omega) + Rsqr (eval rho delta)).
Proof.
  unfold h_norm_of, sympy.sqrt. cbn [eval eval_unop].
  rewrite eval_add, !eval_square. reflexivity.
Qed.

Lemma eval_alpha (rho : env) (duration omega delta : expr) :
  eval rho (alpha_of duration omega delta)
  = (eval rho duration
     * R_sqrt.sqrt (Rsqr (eval rho omega) + Rsqr (eval rho delta)) / 1000)%R.
Proof.
  unfold alpha_of. rewrite eval_div, eval_mul, eval_h_norm, eval_lit.
  reflexivity.
Qed.

Lemma eval_scaled (rho : env) (duration : expr) :
  eval rho (scaled duration) = (eval rho duration / 1000)%R.
Proof.
  unfold scaled. rewrite eval_div, eval_lit. reflexivity.
Qed.

(** C4: in every generic drive that was built, the role [h_norm] of the
    parameter map is the expression [sqrt(omega^2 + delta^2)] and the role
    [alpha] is the expression [duration * h_norm / 1000], where omega, delta
    and duration are the arguments of the constructor; substituting numbers
    gives the direct numeric computation. *)
Theorem drive_h_norm_and_alpha (register : Register)
  (duration omega delta : TParameter) (phase : option TParameter)
  (qubit_support : option (list nat)) (add_pattern : option bool)
  (op : Instance) :
  AnalogDrive register duration omega delta phase qubit_support add_pattern
  = Ok op ->
  let h_norm :=
    sympy.sqrt (Parameter_ omega ** lit 2 + Parameter_ delta ** lit 2)%sym in
  let alpha := Binary Div (Parameter_ duration * h_norm)%sym (lit 1000) in
  holds_role op "h_norm" h_norm
  /\ holds_role op "alpha" alpha
  /\ forall rho,
       eval rho h_norm
       = R_sqrt.sqrt (Rsqr (eval rho (Parameter_ omega))
                      + Rsqr (eval rho (Parameter_ delta)))
       /\ eval rho alpha
          = (eval rho (Parameter_ duration) * eval rho h_norm / 1000)%R.
Proof.
  unfold AnalogDrive. intros H. pose proof (AnalogDrive_init_inv _ _ _ _ _ _ _ _ _ H) as Hnz.
  rewrite (AnalogDrive_init_Ok _ _ _ _ _ _ _ _ Hnz) in H.
  injection H as <-. cbv zeta. split; [|split].
  - eexists. split; reflexivity.
  - eexists. split; reflexivity.
  - intros rho. split.
    + apply eval_h_norm.
    + rewrite eval_div, eval_mul, eval_lit. reflexivity.
Qed.

(* ------------------------------------------------------------------ *)
(** ** The rotations, step by step *)

(** The duration a rotation asks of the generic drive: the angle divided by
    the fixed non-zero drive parameter (pi), times 1000. *)
Definition rotation_duration (angle : TParameter) : expr :=
  (Binary Div (Parameter_ angle) (Constant PI) * lit 1000)%sym.

Lemma AnalogRX_init_eq (self : Instance) (register : Register)
  (angle : TParameter) (qubit_support : option (list nat))
  (add_pattern : bool) :
  AnalogRX_init self register angle qubit_support add_pattern
  = AnalogDrive_init (set_alpha self (Parameter_ angle)) register
      (TBasic (rotation_duration angle)) (TNumber PI) (TNumber (of_Z 0))
      (TNumber (of_Z 0)) qubit_support add_pattern.
Proof. reflexivity. Qed.

(** The literal [-PI / 2]. *)
Definition minus_half_PI : number := mkNum 0 (-1 # 2).

Lemma AnalogRY_init_eq (self : Instance) (register : Register)
  (angle : TParameter) (qubit_support : option (list nat))
  (add_pattern : bool) :
  AnalogRY_init self register angle qubit_support add_pattern
  = AnalogDrive_init (set_alpha self (Parameter_ angle)) register
      (TBasic (rotation_duration angle)) (TNumber PI) (TNumber (of_Z 0))
      (TNumber minus_half_PI) qubit_support add_pattern.
Proof. reflexivity. Qed.

Lemma AnalogRZ_init_eq (self : Instance) (register : Register)
  (angle : TParameter) (qubit_support : option (list nat))
  (add_pattern : bool) :
  AnalogRZ_init self register angle qubit_support add_pattern
  = AnalogDrive_init (set_alpha self (Parameter_ angle)) register
      (TBasic (rotation_duration angle)) (TNumber (of_Z 0)) (TNumber PI)
      (TNumber (of_Z 0)) qubit_support add_pattern.
Proof. reflexivity. Qed.

(** The instance a successful [AnalogDrive.__init__] leaves behind. *)
Definition drive_instance (alpha : option expr) (register : Register)
  (duration omega delta phase : expr) (qs : list nat) (add_pattern : bool)
  : Instance :=
  mkInstance (Some add_pattern) (Some duration) alpha
    (Some (drive_generator register omega delta phase qs add_pattern))
    (Some (scaled duration))
    (Some [("parameter", scaled duration);
           ("duration", duration);
           ("alpha", alpha_of duration omega delta);
           ("omega", omega);
           ("delta", delta);
           ("phase", phase);
           ("h_norm", h_norm_of omega delta)]).

Lemma AnalogDrive_Ok (register : Register)
  (duration omega delta : TParameter) (phase : option TParameter)
  (qubit_support : option (list nat)) (add_pattern : option bool) :
  eq_zero omega && eq_zero delta = false ->
  AnalogDrive register duration omega delta phase qubit_support add_pattern
  = Ok (drive_instance None register (Parameter_ duration) (Parameter_ omega)
          (Parameter_ delta) (Parameter_ (or_default (TNumber (of_Z 0)) phase))
          (support_of register qubit_support) (or_default true add_pattern)).
Proof.
  intros H. unfold AnalogDrive.
  rewrite (AnalogDrive_init_Ok _ _ _ _ _ _ _ _ H). reflexivity.
Qed.

Lemma AnalogInteraction_Ok (register : Register) (duration : TParameter)
  (add_pattern : option bool) :
  AnalogInteraction register duration add_pattern
  = Ok (mkInstance (Some (or_default true add_pattern))
          (Some (Parameter_ duration)) None
          (Some match or_default true add_pattern,
                      rydberg_pattern_hamiltonian register with
                | true, Some pattern =>
                    (rydberg_interaction_hamiltonian register + pattern)%blk
                | _, _ => rydberg_interaction_hamiltonian register
                end)
          (Some (scaled (Parameter_ duration)))
          (Some [("parameter", scaled (Parameter_ duration));
                 ("duration", Parameter_ duration)])).
Proof.
  unfold AnalogInteraction, AnalogInteraction_init.
  cbn [set_add_pattern set_duration attr_duration getattr bind].
  rewrite !div_lit by discriminate. reflexivity.
Qed.

Lemma AnalogRX_Ok (register : Register) (angle : TParameter)
  (qubit_support : option (list nat)) (add_pattern : option bool) :
  AnalogRX register angle qubit_support add_pattern
  = Ok (drive_instance (Some (Parameter_ angle)) register
          (rotation_duration angle) (Constant PI) (lit 0) (lit 0)
          (support_of register qubit_support) (or_default true add_pattern)).
Proof.
  unfold AnalogRX. rewrite AnalogRX_init_eq.
  rewrite AnalogDrive_init_Ok by reflexivity. reflexivity.
Qed.

Lemma AnalogRY_Ok (register : Register) (angle : TParameter)
  (qubit_support : option (list nat)) (add_pattern : option bool) :
  AnalogRY register angle qubit_support add_pattern
  = Ok (drive_instance (Some (Parameter_ angle)) register
          (rotation_duration angle) (Constant PI) (lit 0)
          (Constant minus_half_PI)
          (support_of register qubit_support) (or_default true add_pattern)).
Proof.
  unfold AnalogRY. rewrite AnalogRY_init_eq.
  rewrite AnalogDrive_init_Ok by reflexivity. reflexivity.
Qed.

Lemma AnalogRZ_Ok (register : Register) (angle : TParameter)
  (qubit_support : option (list nat)) (add_pattern : option bool) :
  AnalogRZ register angle qubit_support add_pattern
  = Ok (drive_instance (Some (Parameter_ angle)) register
          (rotation_duration angle) (lit 0) (Constant PI) (lit 0)
          (support_of register qubit_support) (or_default true add_pattern)).
Proof.
  unfold AnalogRZ. rewrite AnalogRZ_init_eq.
  rewrite AnalogDrive_init_Ok by reflexivity. reflexivity.
Qed.

Lemma drive_instance_role (alpha : option expr) (register : Register)
  (duration omega delta phase : expr) (qs : list nat) (add_pattern : bool) :
  let op := drive_instance alpha register duration omega delta phase qs
              add_pattern in
  holds_role op "parameter" (scaled duration)
  /\ holds_role op "duration" duration
  /\ holds_role op "alpha" (alpha_of duration omega delta)
  /\ holds_role op "omega" omega
  /\ holds_role op "delta" delta
  /\ holds_role op "phase" phase
  /\ holds_role op "h_norm" (h_norm_of omega delta).
Proof.
  cbv zeta. repeat split; eexists; (split; [reflexivity|reflexivity]).
Qed.

(* ------------------------------------------------------------------ *)
(** ** The scaling of the duration *)

(** An operation that evolves for a requested duration: it keeps the
    requested duration, hands the scaled duration to the time-evolution
    primitive, and holds that same expression under [parameter]. *)
Definition evolves_for (requested : expr) (r : result Instance) : Prop :=
  exists op,
    r = Ok op
    /\ attr_duration op = Some requested
    /\ handed_to_primitive op (scaled requested)
    /\ holds_role op "parameter" (scaled requested).

(** C3: for every operation variant (interaction, generic drive and the
    three rotations) the duration scalar handed to the time-evolution
    primitive is the requested duration divided by 1000, and the role
    [parameter] of the parameter map holds exactly this expression. For a
    rotation the requested duration is the one it asks of the generic
    drive. *)
Theorem every_variant_scales_its_duration (register : Register)
  (duration angle omega delta : TParameter) (phase : option TParameter)
  (qubit_support : option (list nat)) (add_pattern : option bool) :
  evolves_for (Parameter_ duration)
    (AnalogInteraction register duration add_pattern)
  /\ (~ (literal_zero omega /\ literal_zero delta) ->
      evolves_for (Parameter_ duration)
        (AnalogDrive register duration omega delta phase qubit_support
           add_pattern))
  /\ evolves_for (rotation_duration angle)
       (AnalogRX register angle qubit_support add_pattern)
  /\ evolves_for (rotation_duration angle)
       (AnalogRY register angle qubit_support add_pattern)
  /\ evolves_for (rotation_duration angle)
       (AnalogRZ register angle qubit_support add_pattern).
Proof.
  unfold evolves_for, handed_to_primitive.
  split; [|split; [|split; [|split]]].
  - rewrite AnalogInteraction_Ok. eexists. split; [reflexivity|].
    split; [reflexivity|]. split; [reflexivity|].
    eexists. split; reflexivity.
  - intros H. apply not_jointly_zero in H. rewrite (AnalogDrive_Ok _ _ _ _ _ _ _ H).
    eexists. split; [reflexivity|]. split; [reflexivity|].
    split; [reflexivity|]. apply drive_instance_role.
  - rewrite AnalogRX_Ok. eexists. split; [reflexivity|].
    split; [reflexivity|]. split; [reflexivity|]. apply drive_instance_role.
  - rewrite AnalogRY_Ok. eexists. split; [reflexivity|].
    split; [reflexivity|]. split; [reflexivity|]. apply drive_instance_role.
  - rewrite AnalogRZ_Ok. eexists. split; [reflexivity|].
    split; [reflexivity|]. split; [reflexivity|]. apply drive_instance_role.
Qed.

(* ------------------------------------------------------------------ *)
(** ** The rotations *)

Lemma eval_PI (rho : env) : eval rho (Constant PI) = Rtrigo1.PI.
Proof. apply num2R_PI. Qed.

Lemma eval_minus_half_PI (rho : env) :
  eval rho (Constant minus_half_PI) = (- Rtrigo1.PI / 2)%R.
Proof.
  cbn [eval]. unfold num2R, minus_half_PI, Q2R; simpl. lra.
Qed.

Lemma eval_rotation_duration (rho : env) (angle : TParameter) :
  eval rho (rotation_duration angle)
  = (eval rho (Parameter_ angle) / Rtrigo1.PI * 1000)%R.
Proof.
  unfold rotation_duration.
  rewrite eval_mul, eval_div, eval_PI, eval_lit. reflexivity.
Qed.

Lemma eval_effective_duration (rho : env) (angle : TParameter) :
  eval rho (scaled (rotation_duration angle))
  = (eval rho (Parameter_ angle) / Rtrigo1.PI)%R.
Proof.
  rewrite eval_scaled, eval_rotation_duration. lra.
Qed.

(** C5: for every angle, the rotation about X fixes omega = pi, delta = 0
    and phase = 0, asks for the duration angle / omega * 1000, and so hands
    the effective duration angle / pi to the time-evolution primitive; the
    rotation about Z fixes omega = 0, delta = pi and phase = 0, asks for the
    duration angle / delta * 1000 (normalising by the detuning, not by the
    amplitude), and hands the effective duration angle / pi as well. *)
Theorem rotations_X_and_Z_fix_the_drive (register : Register)
  (angle : TParameter) (qubit_support : option (list nat))
  (add_pattern : option bool) :
  (exists rx omega effective,
     AnalogRX register angle qubit_support add_pattern = Ok rx
     /\ holds_role rx "omega" omega /\ omega = Constant PI
     /\ holds_role rx "delta" (lit 0)
     /\ holds_role rx "phase" (lit 0)
     /\ holds_role rx "duration"
          (Binary Div (Parameter_ angle) omega * lit 1000)%sym
     /\ handed_to_primitive rx effective
     /\ forall rho,
          eval rho effective = (eval rho (Parameter_ angle) / Rtrigo1.PI)%R)
  /\ (exists rz delta effective,
        AnalogRZ register angle qubit_support add_pattern = Ok rz
        /\ holds_role rz "omega" (lit 0)
        /\ holds_role rz "delta" delta /\ delta = Constant PI
        /\ holds_role rz "phase" (lit 0)
        /\ holds_role rz "duration"
             (Binary Div (Parameter_ angle) delta * lit 1000)%sym
        /\ handed_to_primitive rz effective
        /\ forall rho,
             eval rho effective
             = (eval rho (Parameter_ angle) / Rtrigo1.PI)%R).
Proof.
  split.
  - rewrite AnalogRX_Ok. eexists. exists (Constant PI). eexists.
    split; [reflexivity|].
    repeat (split; [first [reflexivity | apply drive_instance_role]|]).
    intros rho. apply eval_effective_duration.
  - rewrite AnalogRZ_Ok. eexists. exists (Constant PI). eexists.
    split; [reflexivity|].
    repeat (split; [first [reflexivity | apply drive_instance_role]|]).
    intros rho. apply eval_effective_duration.
Qed.

Lemma get_other_role (role : string) (phase phase' : expr)
  (pre post : ParamMap) :
  role <> "phase" ->
  ParamMap_get role (pre ++ ("phase", phase) :: post)%list
  = ParamMap_get role (pre ++ ("phase", phase') :: post)%list.
Proof.
  intros Hne. induction pre as [|[r e] pre IH]; cbn [ParamMap_get app].
  - assert (E : String.eqb "phase" role = false).
    { apply String.eqb_neq. intros E. apply Hne. now symmetry. }
    rewrite E. reflexivity.
  - destruct (String.eqb r role); [reflexivity|exact IH].
Qed.

(** C6: for every register, angle, qubit support and pattern flag, the
    rotation about Y and the rotation about X are both built and differ only
    in the fixed phase, -pi/2 instead of 0. For equal angles both hold the
    same seven roles; the derived [alpha] and [h_norm], the roles [omega],
    [delta], [duration] and [parameter], the effective duration handed to
    the time-evolution primitive (of value angle / pi) and the attributes
    are present in both and identical; and the two generators are the drive
    hamiltonian on the same support with the same amplitude, detuning and
    pattern flag, at phase 0 for X and at phase -pi/2 for Y. *)
Theorem rotation_Y_is_rotation_X_but_for_the_phase (register : Register)
  (angle : TParameter) (qubit_support : option (list nat))
  (add_pattern : option bool) :
  let qs := support_of register qubit_support in
  let flag := or_default true add_pattern in
  let duration :=
    (Binary Div (Parameter_ angle) (Constant PI) * lit 1000)%sym in
  let h_norm := sympy.sqrt (Constant PI ** lit 2 + lit 0 ** lit 2)%sym in
  let alpha := Binary Div (duration * h_norm)%sym (lit 1000) in
  let effective := Binary Div duration (lit 1000) in
  let names :=
    ["parameter"; "duration"; "alpha"; "omega"; "delta"; "phase"; "h_norm"] in
  exists rx ry mx my gx gy,
    AnalogRX register angle qubit_support add_pattern = Ok rx
    /\ AnalogRY register angle qubit_support add_pattern = Ok ry
    /\ attr_parameters rx = Some mx /\ attr_parameters ry = Some my
    /\ (ParamMap_get "phase" mx = Ok (lit 0)
        /\ ParamMap_get "phase" my = Ok (Constant minus_half_PI)
        /\ forall rho,
             eval rho (Constant minus_half_PI) = (- Rtrigo1.PI / 2)%R)
    /\ (map fst mx = names /\ map fst my = names
        /\ forall role, role <> "phase" ->
              ParamMap_get role mx = ParamMap_get role my)
    /\ (ParamMap_get "alpha" mx = Ok alpha
        /\ ParamMap_get "alpha" my = Ok alpha)
    /\ (ParamMap_get "h_norm" mx = Ok h_norm
        /\ ParamMap_get "h_norm" my = Ok h_norm)
    /\ (ParamMap_get "omega" mx = Ok (Constant PI)
        /\ ParamMap_get "omega" my = Ok (Constant PI))
    /\ (ParamMap_get "delta" mx = Ok (lit 0)
        /\ ParamMap_get "delta" my = Ok (lit 0))
    /\ (ParamMap_get "duration" mx = Ok duration
        /\ ParamMap_get "duration" my = Ok duration)
    /\ (ParamMap_get "parameter" mx = Ok effective
        /\ ParamMap_get "parameter" my = Ok effective)
    /\ (handed_to_primitive rx effective /\ handed_to_primitive ry effective
        /\ forall rho,
             eval rho effective
             = (eval rho (Parameter_ angle) / Rtrigo1.PI)%R)
    /\ (attr_duration rx = Some duration /\ attr_duration ry = Some duration)
    /\ (attr_alpha rx = Some (Parameter_ angle)
        /\ attr_alpha ry = Some (Parameter_ angle))
    /\ (attr_add_pattern rx = Some flag /\ attr_add_pattern ry = Some flag)
    /\ (has_generator rx gx /\ has_generator ry gy)
    /\ (gx = drive_generator register (Constant PI) (lit 0) (lit 0) qs flag
        /\ gy = drive_generator register (Constant PI) (lit 0)
                  (Constant minus_half_PI) qs flag)
    /\ forall rho,
         denote rho gx
         ==v denote rho
               (drive_hamiltonian register (Constant PI) (lit 0) (lit 0)
                  qs flag)
         /\ denote rho gy
            ==v denote rho
                  (drive_hamiltonian register (Constant PI) (lit 0)
                     (Constant minus_half_PI) qs flag).
Proof.
  cbv zeta. rewrite AnalogRX_Ok, AnalogRY_Ok.
  do 6 eexists.
  split; [reflexivity|]. split; [reflexivity|].
  split; [reflexivity|]. split; [reflexivity|].
  split.
  { split; [reflexivity|]. split; [reflexivity|]. exact eval_minus_half_PI. }
  split.
  { split; [reflexivity|]. split; [reflexivity|].
    intros role Hne.
    exact (get_other_role role _ _
             [("parameter", _); ("duration", _); ("alpha", _);
              ("omega", _); ("delta", _)]
             [("h_norm", _)] Hne). }
  do 6 (split; [split; reflexivity|]).
  split.
  { split; [reflexivity|]. split; [reflexivity|].
    intros rho. apply (eval_effective_duration rho angle). }
  do 3 (split; [split; reflexivity|]).
  split; [split; reflexivity|].
  split; [split; reflexivity|].
  intros rho. split; apply drive_generator_refines.
Qed.

(* ------------------------------------------------------------------ *)
(** ** The pattern term *)

Lemma drive_generator_no_pattern (register : Register)
  (omega delta phase : expr) (qs : list nat) (f1 f2 : bool) :
  rydberg_pattern_hamiltonian register = None ->
  drive_generator register omega delta phase qs f1
  = drive_generator register omega delta phase qs f2.
Proof.
  intros H. unfold drive_generator. rewrite H.
  destruct f1, f2; reflexivity.
Qed.

Lemma drive_instance_no_pattern (a1 a2 : option expr) (register : Register)
  (duration omega delta phase : expr) (qs : list nat) (f1 f2 : bool) :
  rydberg_pattern_hamiltonian register = None ->
  attr_generator
    (drive_instance a1 register duration omega delta phase qs f1)
  = attr_generator
      (drive_instance a2 register duration omega delta phase qs f2).
Proof.
  intros H. cbn [drive_instance attr_generator].
  now rewrite (drive_generator_no_pattern _ _ _ _ _ f1 f2 H).
Qed.

(** C7: when the register has no pattern hamiltonian, the generator of
    every operation built on it is the same whatever the pattern-inclusion
    flag (true, false or left out); and the pure-interaction operation built
    with the flag false has the interaction term alone as its generator,
    whether or not a pattern exists. *)
Theorem pattern_flag_without_pattern (register : Register)
  (duration angle omega delta : TParameter) (phase : option TParameter)
  (qubit_support : option (list nat)) :
  (rydberg_pattern_hamiltonian register = None ->
   forall f1 f2 : option bool,
     fmap attr_generator (AnalogInteraction register duration f1)
     = fmap attr_generator (AnalogInteraction register duration f2)
     /\ fmap attr_generator
          (AnalogDrive register duration omega delta phase qubit_support f1)
        = fmap attr_generator
            (AnalogDrive register duration omega delta phase qubit_support f2)
     /\ fmap attr_generator (AnalogRX register angle qubit_support f1)
        = fmap attr_generator (AnalogRX register angle qubit_support f2)
     /\ fmap attr_generator (AnalogRY register angle qubit_support f1)
        = fmap attr_generator (AnalogRY register angle qubit_support f2)
     /\ fmap attr_generator (AnalogRZ register angle qubit_support f1)
        = fmap attr_generator (AnalogRZ register angle qubit_support f2))
  /\ (exists op,
        AnalogInteraction register duration (Some false) = Ok op
        /\ has_generator op (rydberg_interaction_hamiltonian register)).
Proof.
  split.
  - intros H f1 f2. split; [|split; [|split; [|split]]].
    + rewrite !AnalogInteraction_Ok. cbn [fmap bind attr_generator].
      rewrite H. destruct (or_default true f1), (or_default true f2);
        reflexivity.
    + destruct (eq_zero omega && eq_zero delta) eqn:E.
      * unfold AnalogDrive.
        rewrite !(AnalogDrive_init_raises _ _ _ _ _ _ _ _ E). reflexivity.
      * rewrite !(AnalogDrive_Ok _ _ _ _ _ _ _ E). cbn [fmap bind].
        f_equal. now apply drive_instance_no_pattern.
    + rewrite !AnalogRX_Ok. cbn [fmap bind].
      f_equal. now apply drive_instance_no_pattern.
    + rewrite !AnalogRY_Ok. cbn [fmap bind].
      f_equal. now apply drive_instance_no_pattern.
    + rewrite !AnalogRZ_Ok. cbn [fmap bind].
      f_equal. now apply drive_instance_no_pattern.
  - rewrite AnalogInteraction_Ok. eexists. split; reflexivity.
Qed.

(* ------------------------------------------------------------------ *)
(** ** The two alphas of a rotation *)

Fixpoint size (e : expr) : nat :=
  match e with
  | Constant _ | FreeVariable _ => 1
  | Unary _ a => S (size a)
  | Binary _ a b => S (size a + size b)
  end.

Lemma derived_alpha_is_not_the_angle (angle : TParameter) (omega delta : expr) :
  alpha_of (rotation_duration angle) omega delta <> Parameter_ angle.
Proof.
  intros E. apply (f_equal size) in E.
  unfold alpha_of, rotation_duration, sympy.mul in E. cbn [size] in E. lia.
Qed.

Lemma sqrt_sqr_PI : R_sqrt.sqrt (Rsqr Rtrigo1.PI) = Rtrigo1.PI.
Proof. apply sqrt_Rsqr. left. exact PI_RGT_0. Qed.

Lemma eval_rotation_alpha_X (rho : env) (angle : TParameter) :
  eval rho (alpha_of (rotation_duration angle) (Constant PI) (lit 0))
  = eval rho (Parameter_ angle).
Proof.
  rewrite eval_alpha, eval_rotation_duration, eval_PI, eval_lit.
  rewrite Rsqr_0, Rplus_0_r, sqrt_sqr_PI.
  pose proof PI_RGT_0. field. lra.
Qed.

Lemma eval_rotation_alpha_Z (rho : env) (angle : TParameter) :
  eval rho (alpha_of (rotation_duration angle) (lit 0) (Constant PI))
  = eval rho (Parameter_ angle).
Proof.
  rewrite eval_alpha, eval_rotation_duration, eval_PI, eval_lit.
  rewrite Rsqr_0, Rplus_0_l, sqrt_sqr_PI.
  pose proof PI_RGT_0. field. lra.
Qed.

(** A rotation that keeps the angle the caller gave as its own attribute
    [alpha], and the derived [duration * h_norm / 1000] under the role
    [alpha] of its parameter map: two places, two expressions, one value. *)
Definition keeps_both_alphas (angle : TParameter) (r : result Instance)
  : Prop :=
  exists op derived d h,
    r = Ok op
    /\ attr_alpha op = Some (Parameter_ angle)
    /\ holds_role op "alpha" derived
    /\ holds_role op "duration" d
    /\ holds_role op "h_norm" h
    /\ derived = Binary Div (d * h)%sym (lit 1000)
    /\ derived <> Parameter_ angle
    /\ forall rho, eval rho derived = eval rho (Parameter_ angle).

(** C9: for every rotation (X, Y, Z) and every angle, the angle the caller
    gave is stored as the attribute [alpha] of the instance, apart from the
    derived [alpha] (duration * h_norm / 1000) stored in the parameter map;
    the generic constructor leaves the attribute as it finds it, so neither
    overwrites the other; and the two expressions have the same value. *)
Theorem rotations_keep_both_alphas (register : Register)
  (angle : TParameter) (qubit_support : option (list nat))
  (add_pattern : option bool) :
  keeps_both_alphas angle (AnalogRX register angle qubit_support add_pattern)
  /\ keeps_both_alphas angle
       (AnalogRY register angle qubit_support add_pattern)
  /\ keeps_both_alphas angle
       (AnalogRZ register angle qubit_support add_pattern)
  /\ forall self duration omega delta phase flag op,
       AnalogDrive_init self register duration omega delta phase
         qubit_support flag = Ok op ->
       attr_alpha op = attr_alpha self.
Proof.
  unfold keeps_both_alphas. split; [|split; [|split]].
  - rewrite AnalogRX_Ok. do 4 eexists. split; [reflexivity|].
    split; [reflexivity|].
    do 3 (split; [apply drive_instance_role|]).
    split; [reflexivity|]. split.
    + apply derived_alpha_is_not_the_angle.
    + intros rho. apply eval_rotation_alpha_X.
  - rewrite AnalogRY_Ok. do 4 eexists. split; [reflexivity|].
    split; [reflexivity|].
    do 3 (split; [apply drive_instance_role|]).
    split; [reflexivity|]. split.
    + apply derived_alpha_is_not_the_angle.
    + intros rho. apply eval_rotation_alpha_X.
  - rewrite AnalogRZ_Ok. do 4 eexists. split; [reflexivity|].
    split; [reflexivity|].
    do 3 (split; [apply drive_instance_role|]).
    split; [reflexivity|]. split.
    + apply derived_alpha_is_not_the_angle.
    + intros rho. apply eval_rotation_alpha_Z.
  - intros self duration omega delta phase flag op H.
    pose proof (AnalogDrive_init_inv _ _ _ _ _ _ _ _ _ H) as Hnz.
    rewrite (AnalogDrive_init_Ok _ _ _ _ _ _ _ _ Hnz) in H.
    injection H as <-. reflexivity.
Qed.

(* ------------------------------------------------------------------ *)
(** ** The defaults of the generic drive *)

(** The drive hamiltonian at phase zero, where the Y terms vanish:
    [(Omega/2) X - Delta N + H_int [+ H_pattern]]. *)
Definition resonant_hamiltonian (register : Register) (omega delta : expr)
  (qubit_support : list nat) (add_pattern : bool) : block :=
  let half := Binary Div omega (lit 2) in
  let drive :=
    add (map (fun i => (half * X i - delta * N i)%blk) qubit_support) in
  let h := (drive + rydberg_interaction_hamiltonian register)%blk in
  match pattern_term register add_pattern with
  | Some pattern => (h + pattern)%blk
  | None => h
  end.

Lemma eval_cos_0 (rho : env) : eval rho (sympy.cos (lit 0)) = 1%R.
Proof.
  unfold sympy.cos. cbn [eval eval_unop]. fold (eval rho (lit 0)).
  rewrite eval_lit. exact cos_0.
Qed.

Lemma eval_sin_0 (rho : env) : eval rho (sympy.sin (lit 0)) = 0%R.
Proof.
  unfold sympy.sin. cbn [eval eval_unop]. fold (eval rho (lit 0)).
  rewrite eval_lit. exact sin_0.
Qed.

Lemma zero_phase_sum (rho : env) (half delta : expr) (qs : list nat)
  (a : atom) :
  vsum (map (fun i => denote rho
               ((half * sympy.cos (lit 0))%sym * X i
                - (half * sympy.sin (lit 0))%sym * Y i
                - delta * N i)%blk) qs) a
  = vsum (map (fun i => denote rho (half * X i - delta * N i)%blk) qs) a.
Proof.
  induction qs as [|i qs IH].
  - reflexivity.
  - rewrite !vsum_map_cons, IH. f_equal.
    denote_sums. rewrite !eval_mul, eval_cos_0, eval_sin_0. ring.
Qed.

Lemma zero_phase_hamiltonian (rho : env) (register : Register)
  (omega delta : expr) (qs : list nat) (add_pattern : bool) :
  denote rho (drive_hamiltonian register omega delta (lit 0) qs add_pattern)
  ==v denote rho (resonant_hamiltonian register omega delta qs add_pattern).
Proof.
  intros a. unfold drive_hamiltonian, resonant_hamiltonian. cbv zeta.
  destruct (pattern_term register add_pattern);
    denote_sums; rewrite zero_phase_sum; reflexivity.
Qed.

(** C10: when the generic drive is built without a phase argument, the
    phase is the literal constant 0, so the coefficient
    [(omega/2) sin(phase)] of every Y term is zero, the coefficient of every
    X term is [omega/2], and the generator has no drive term on Y; likewise
    the pattern-inclusion flag is true when it is left out. *)
Theorem drive_defaults (register : Register)
  (duration omega delta : TParameter) (phase : option TParameter)
  (qubit_support : option (list nat)) (add_pattern : option bool) :
  ~ (literal_zero omega /\ literal_zero delta) ->
  (exists op g,
     AnalogDrive register duration omega delta None qubit_support add_pattern
     = Ok op
     /\ holds_role op "phase" (lit 0)
     /\ has_generator op g
     /\ forall rho,
          let half := Binary Div (Parameter_ omega) (lit 2) in
          eval rho (half * sympy.sin (lit 0))%sym = 0%R
          /\ eval rho (half * sympy.cos (lit 0))%sym
             = (eval rho (Parameter_ omega) / 2)%R
          /\ denote rho g
             ==v denote rho
                   (resonant_hamiltonian register (Parameter_ omega)
                      (Parameter_ delta) (support_of register qubit_support)
                      (or_default true add_pattern)))
  /\ (exists op,
        AnalogDrive register duration omega delta phase qubit_support None
        = Ok op
        /\ attr_add_pattern op = Some true
        /\ AnalogDrive register duration omega delta phase qubit_support
             (Some true) = Ok op).
Proof.
  intros Hnz. apply not_jointly_zero in Hnz. split.
  - rewrite (AnalogDrive_Ok _ _ _ _ _ _ _ Hnz). do 2 eexists.
    split; [reflexivity|]. split; [apply drive_instance_role|].
    split; [reflexivity|]. intros rho. cbv zeta. split; [|split].
    + rewrite eval_mul, eval_sin_0. ring.
    + rewrite eval_mul, eval_cos_0, eval_div, eval_lit. lra.
    + intros a. cbn [or_default Parameter_].
      rewrite (drive_generator_refines rho _ _ _ _ _ _ a).
      apply zero_phase_hamiltonian.
  - rewrite !(AnalogDrive_Ok _ _ _ _ _ _ _ Hnz). eexists.
    split; [reflexivity|]. split; reflexivity.
Qed.

(* ------------------------------------------------------------------ *)
(** ** A pi drive on two qubits *)

(** [(pi/2) (X(0) + X(1))] plus the interaction term, plus the pattern term
    if any. *)
Definition pi_drive_hamiltonian (register : Register) (add_pattern : bool)
  : block :=
  let h :=
    (Binary Div (Constant PI) (lit 2) * (X 0 + X 1)
     + rydberg_interaction_hamiltonian register)%blk in
  match pattern_term register add_pattern with
  | Some pattern => (h + pattern)%blk
  | None => h
  end.

Lemma pi_drive_resonant (rho : env) (register : Register)
  (add_pattern : bool) :
  denote rho
    (resonant_hamiltonian register (Constant PI) (lit 0) [0%nat; 1%nat] add_pattern)
  ==v denote rho (pi_drive_hamiltonian register add_pattern).
Proof.
  intros a. unfold resonant_hamiltonian, pi_drive_hamiltonian. cbv zeta.
  destruct (pattern_term register add_pattern);
    denote_sums; cbn [map vsum fold_right]; denote_sums;
    unfold vzero; rewrite eval_lit; ring.
Qed.

(** C8, amended: the generic drive built on the support (0, 1) with
    omega = pi, delta = 0, phase = 0 and duration = 1000 has the generator
    [(pi/2) (X(0) + X(1))] plus the interaction term (plus the pattern term
    when it exists and is included); the role [parameter] of its parameter
    map is the scaled duration 1000 / 1000, the expression handed to the
    time-evolution primitive, and its value is 1. *)
Theorem pi_drive_on_two_qubits (register : Register)
  (add_pattern : option bool) :
  exists op g e,
    AnalogDrive register (TNumber (of_Z 1000)) (TNumber PI)
      (TNumber (of_Z 0)) (Some (TNumber (of_Z 0))) (Some [0%nat; 1%nat]) add_pattern
    = Ok op
    /\ has_generator op g
    /\ (forall rho,
          denote rho g
          ==v denote rho
                (pi_drive_hamiltonian register (or_default true add_pattern)))
    /\ holds_role op "parameter" e
    /\ handed_to_primitive op e
    /\ e = scaled (lit 1000)
    /\ forall rho, eval rho e = 1%R.
Proof.
  rewrite AnalogDrive_Ok by reflexivity. do 3 eexists.
  split; [reflexivity|]. split; [reflexivity|]. split.
  { intros rho a. cbn [or_default Parameter_ support_of].
    rewrite (drive_generator_refines rho _ _ _ _ _ _ a).
    rewrite (zero_phase_hamiltonian rho _ _ _ _ _ a).
    apply pi_drive_resonant. }
  split; [apply drive_instance_role|].
  split; [reflexivity|]. split; [reflexivity|].
  intros rho. rewrite eval_scaled. cbn [Parameter_].
  fold (lit 1000). rewrite eval_lit. lra.
Qed.

(* ------------------------------------------------------------------ *)
(** ** The coefficients of a generator *)

(** What surrounds the drive: the interaction term, and the pattern term
    when it exists and its inclusion is requested. *)
Definition background (register : Register) (add_pattern : bool) : block :=
  match add_pattern, rydberg_pattern_hamiltonian register with
  | true, Some pattern =>
      (rydberg_interaction_hamiltonian register + pattern)%blk
  | _, _ => rydberg_interaction_hamiltonian register
  end.

(** The sum of one single-qubit operator over the qubits of a support. *)
Definition occurrences (axis : nat -> atom) (qs : list nat) : vec :=
  vsum (map (fun i => vunit (axis i)) qs).

Lemma scaled_axis_sum (rho : env) (c : expr) (mk : nat -> block)
  (axis : nat -> atom) (qs : list nat) (a : atom) :
  (forall i, denote rho (mk i) = vunit (axis i)) ->
  vsum (map (fun i => denote rho (c * mk i)%blk) qs) a
  = (eval rho c * occurrences axis qs a)%R.
Proof.
  intros Hmk. unfold occurrences. induction qs as [|i qs IH].
  - simpl. unfold vzero. ring.
  - rewrite !vsum_map_cons, IH, denote_Scale, Hmk. unfold vscale. ring.
Qed.

Lemma drive_generator_coefficients (rho : env) (register : Register)
  (omega delta phase : expr) (qs : list nat) (add_pattern : bool) (a : atom) :
  denote rho (drive_generator register omega delta phase qs add_pattern) a
  = (eval rho omega / 2 * Rtrigo_def.cos (eval rho phase)
       * occurrences AX qs a
     - eval rho omega / 2 * Rtrigo_def.sin (eval rho phase)
       * occurrences AY qs a
     - eval rho delta * occurrences AN qs a
     + denote rho (background register add_pattern) a)%R.
Proof.
  assert (HN : vsum (map (fun i => denote rho (N i)) qs) a
               = occurrences AN qs a) by reflexivity.
  unfold drive_generator, background. cbv zeta.
  destruct add_pattern, (rydberg_pattern_hamiltonian register);
    denote_sums;
    rewrite (scaled_axis_sum rho _ X AX), (scaled_axis_sum rho _ Y AY), HN
      by reflexivity;
    rewrite eval_div, eval_lit; cbn [sympy.cos sympy.sin eval eval_unop];
    ring.
Qed.

Lemma occurrences_cons (axis : nat -> atom) (i : nat) (qs : list nat)
  (a : atom) :
  occurrences axis (i :: qs) a
  = ((if atom_eqb a (axis i) then 1 else 0) + occurrences axis qs a)%R.
Proof. reflexivity. Qed.

Lemma occurrences_count (axis : nat -> atom) (qs : list nat) (j : nat) :
  (forall i, atom_eqb (axis j) (axis i) = Nat.eqb j i) ->
  occurrences axis qs (axis j) = INR (count_occ Nat.eq_dec qs j).
Proof.
  intros Hax. induction qs as [|i qs IH].
  - reflexivity.
  - rewrite occurrences_cons, IH, Hax.
    destruct (Nat.eqb_spec j i) as [->|Hne].
    + rewrite count_occ_cons_eq by reflexivity. rewrite S_INR. ring.
    + rewrite count_occ_cons_neq by (intros E; apply Hne; now symmetry).
      ring.
Qed.

Lemma occurrences_elsewhere (axis : nat -> atom) (qs : list nat) (a : atom) :
  (forall i, atom_eqb a (axis i) = false) ->
  occurrences axis qs a = 0%R.
Proof.
  intros Hax. induction qs as [|i qs IH].
  - reflexivity.
  - rewrite occurrences_cons, IH, Hax. ring.
Qed.

Lemma occurrences_Permutation (axis : nat -> atom) (qs qs' : list nat)
  (a : atom) :
  Permutation qs qs' -> occurrences axis qs a = occurrences axis qs' a.
Proof.
  induction 1 as [|i l l' _ IH|i j l|l l' l'' _ IH1 _ IH2].
  - reflexivity.
  - rewrite !occurrences_cons, IH. reflexivity.
  - rewrite !occurrences_cons. ring.
  - now rewrite IH1.
Qed.

(** X1: a qubit support left out is the tuple of the nodes of the register:
    the generic drive and the three rotations built with no support are the
    ones built with the register's nodes given explicitly. *)
Theorem support_defaults_to_the_register_nodes (register : Register)
  (duration angle omega delta : TParameter) (phase : option TParameter)
  (add_pattern : option bool) :
  AnalogDrive register duration omega delta phase None add_pattern
  = AnalogDrive register duration omega delta phase (Some (nodes register))
      add_pattern
  /\ AnalogRX register angle None add_pattern
     = AnalogRX register angle (Some (nodes register)) add_pattern
  /\ AnalogRY register angle None add_pattern
     = AnalogRY register angle (Some (nodes register)) add_pattern
  /\ AnalogRZ register angle None add_pattern
     = AnalogRZ register angle (Some (nodes register)) add_pattern.
Proof.
  split; [|split; [|split]].
  - destruct (eq_zero omega && eq_zero delta) eqn:E.
    + unfold AnalogDrive.
      now rewrite !(AnalogDrive_init_raises _ _ _ _ _ _ _ _ E).
    + now rewrite !(AnalogDrive_Ok _ _ _ _ _ _ _ E).
  - now rewrite !AnalogRX_Ok.
  - now rewrite !AnalogRY_Ok.
  - now rewrite !AnalogRZ_Ok.
Qed.

(** X2: in the generator of a generic drive the coefficient of X(i) is
    [(omega/2) cos(phase)], that of Y(i) is [-(omega/2) sin(phase)] and
    that of N(i) is [-delta], each once per occurrence of the qubit [i] in
    the support, on top of what the interaction and pattern terms contribute;
    a qubit outside the support gets no drive term, and the drive adds
    nothing to any other operator. *)
Theorem drive_coefficients (register : Register)
  (duration omega delta phase : TParameter) (qs : list nat)
  (add_pattern : bool) :
  ~ (literal_zero omega /\ literal_zero delta) ->
  exists op g,
    AnalogDrive register duration omega delta (Some phase) (Some qs)
      (Some add_pattern) = Ok op
    /\ has_generator op g
    /\ forall rho,
         let half_omega := (eval rho (Parameter_ omega) / 2)%R in
         let phi := eval rho (Parameter_ phase) in
         let rest := denote rho (background register add_pattern) in
         (forall i,
            let n := INR (count_occ Nat.eq_dec qs i) in
            denote rho g (AX i)
            = (n * (half_omega * Rtrigo_def.cos phi) + rest (AX i))%R
            /\ denote rho g (AY i)
               = (- n * (half_omega * Rtrigo_def.sin phi) + rest (AY i))%R
            /\ denote rho g (AN i)
               = (- n * eval rho (Parameter_ delta) + rest (AN i))%R)
         /\ (forall i, ~ In i qs ->
               denote rho g (AX i) = rest (AX i)
               /\ denote rho g (AY i) = rest (AY i)
               /\ denote rho g (AN i) = rest (AN i))
         /\ forall s, denote rho g (AOpaque s) = rest (AOpaque s).
Proof.
  intros Hnz. apply not_jointly_zero in Hnz.
  rewrite (AnalogDrive_Ok _ _ _ _ _ _ _ Hnz). do 2 eexists.
  split; [reflexivity|]. split; [reflexivity|].
  intros rho. cbv zeta. cbn [or_default support_of].
  assert (HX : forall i, occurrences AX qs (AX i)
                         = INR (count_occ Nat.eq_dec qs i))
    by (intros i; now apply occurrences_count).
  assert (HY : forall i, occurrences AY qs (AY i)
                         = INR (count_occ Nat.eq_dec qs i))
    by (intros i; now apply occurrences_count).
  assert (HN : forall i, occurrences AN qs (AN i)
                         = INR (count_occ Nat.eq_dec qs i))
    by (intros i; now apply occurrences_count).
  assert (coefficients : forall i,
    denote rho (drive_generator register (Parameter_ omega) (Parameter_ delta)
                  (Parameter_ phase) qs add_pattern) (AX i)
    = (INR (count_occ Nat.eq_dec qs i)
       * (eval rho (Parameter_ omega) / 2
          * Rtrigo_def.cos (eval rho (Parameter_ phase)))
       + denote rho (background register add_pattern) (AX i))%R
    /\ denote rho (drive_generator register (Parameter_ omega)
                     (Parameter_ delta) (Parameter_ phase) qs add_pattern)
         (AY i)
       = (- INR (count_occ Nat.eq_dec qs i)
          * (eval rho (Parameter_ omega) / 2
             * Rtrigo_def.sin (eval rho (Parameter_ phase)))
          + denote rho (background register add_pattern) (AY i))%R
    /\ denote rho (drive_generator register (Parameter_ omega)
                     (Parameter_ delta) (Parameter_ phase) qs add_pattern)
         (AN i)
       = (- INR (count_occ Nat.eq_dec qs i) * eval rho (Parameter_ delta)
          + denote rho (background register add_pattern) (AN i))%R).
  { intros i. rewrite !drive_generator_coefficients.
    rewrite HX, HY, HN.
    rewrite !(occurrences_elsewhere AX qs) by reflexivity.
    rewrite !(occurrences_elsewhere AY qs) by reflexivity.
    rewrite !(occurrences_elsewhere AN qs) by reflexivity.
    repeat split; ring. }
  split; [exact coefficients|]. split.
  - intros i Hout. destruct (coefficients i) as [Hx [Hy Hn]].
    rewrite Hx, Hy, Hn.
    rewrite (proj1 (count_occ_not_In Nat.eq_dec qs i) Hout).
    simpl. repeat split; ring.
  - intros s. rewrite drive_generator_coefficients.
    rewrite !occurrences_elsewhere by reflexivity. ring.
Qed.

(** X3: the order of the qubits in the support does not matter to the
    hamiltonian: two generic drives whose supports are permutations of one
    another have generators with the same coefficients, and agree on their
    parameter maps, durations and flags. *)
Theorem drive_support_order_is_immaterial (register : Register)
  (duration omega delta : TParameter) (phase : option TParameter)
  (qs qs' : list nat) (add_pattern : option bool) :
  ~ (literal_zero omega /\ literal_zero delta) ->
  Permutation qs qs' ->
  exists op op' g g',
    AnalogDrive register duration omega delta phase (Some qs) add_pattern
    = Ok op
    /\ AnalogDrive register duration omega delta phase (Some qs') add_pattern
       = Ok op'
    /\ has_generator op g /\ has_generator op' g'
    /\ (forall rho, denote rho g ==v denote rho g')
    /\ attr_parameters op = attr_parameters op'
    /\ attr_parameter op = attr_parameter op'
    /\ attr_duration op = attr_duration op'
    /\ attr_add_pattern op = attr_add_pattern op'.
Proof.
  intros Hnz Hperm. apply not_jointly_zero in Hnz.
  rewrite !(AnalogDrive_Ok _ _ _ _ _ _ _ Hnz). do 4 eexists.
  split; [reflexivity|]. split; [reflexivity|].
  split; [reflexivity|]. split; [reflexivity|].
  split; [|repeat split; reflexivity].
  intros rho a. cbn [support_of]. rewrite !drive_generator_coefficients.
  now rewrite !(occurrences_Permutation _ qs qs' a Hperm).
Qed.

(* ------------------------------------------------------------------ *)
(** ** The hamiltonians of the rotations *)

(** A single operator on every qubit of the support, with one coefficient,
    on top of the background. *)
Definition axis_hamiltonian (rho : env) (c : R) (axis : nat -> atom)
  (register : Register) (qs : list nat) (add_pattern : bool) : vec :=
  vadd (vscale c (occurrences axis qs))
       (denote rho (background register add_pattern)).

Lemma cos_minus_half_PI : Rtrigo_def.cos (- Rtrigo1.PI / 2) = 0%R.
Proof.
  replace (- Rtrigo1.PI / 2)%R with (- (Rtrigo1.PI / 2))%R by lra.
  rewrite cos_neg. exact cos_PI2.
Qed.

Lemma sin_minus_half_PI : Rtrigo_def.sin (- Rtrigo1.PI / 2) = (-1)%R.
Proof.
  replace (- Rtrigo1.PI / 2)%R with (- (Rtrigo1.PI / 2))%R by lra.
  rewrite sin_neg, sin_PI2. reflexivity.
Qed.

(** X4: the rotation about X is always built, and its generator is
    [(pi/2) X(i)] summed over the support plus the background: it has no
    drive term on Y or N, whatever the angle. *)
Theorem rotation_X_hamiltonian (register : Register) (angle : TParameter)
  (qubit_support : option (list nat)) (add_pattern : option bool) :
  exists op g,
    AnalogRX register angle qubit_support add_pattern = Ok op
    /\ has_generator op g
    /\ forall rho,
         denote rho g
         ==v axis_hamiltonian rho (Rtrigo1.PI / 2) AX register
               (support_of register qubit_support)
               (or_default true add_pattern).
Proof.
  rewrite AnalogRX_Ok. do 2 eexists.
  split; [reflexivity|]. split; [reflexivity|].
  intros rho a. rewrite drive_generator_coefficients.
  unfold axis_hamiltonian, vadd, vscale.
  rewrite eval_PI, eval_lit, cos_0, sin_0. ring.
Qed.

(** X5: the rotation about Y is always built, and its generator is
    [(pi/2) Y(i)] summed over the support plus the background: at the phase
    -pi/2 the X term vanishes and the Y term enters with a plus sign. *)
Theorem rotation_Y_hamiltonian (register : Register) (angle : TParameter)
  (qubit_support : option (list nat)) (add_pattern : option bool) :
  exists op g,
    AnalogRY register angle qubit_support add_pattern = Ok op
    /\ has_generator op g
    /\ forall rho,
         denote rho g
         ==v axis_hamiltonian rho (Rtrigo1.PI / 2) AY register
               (support_of register qubit_support)
               (or_default true add_pattern).
Proof.
  rewrite AnalogRY_Ok. do 2 eexists.
  split; [reflexivity|]. split; [reflexivity|].
  intros rho a. rewrite drive_generator_coefficients.
  unfold axis_hamiltonian, vadd, vscale.
  rewrite eval_PI, eval_lit, eval_minus_half_PI.
  rewrite cos_minus_half_PI, sin_minus_half_PI. ring.
Qed.

(** X6: the rotation about Z is always built, and its generator is
    [- pi N(i)] summed over the support plus the background: with the
    amplitude 0 it has no term on X or Y. *)
Theorem rotation_Z_hamiltonian (register : Register) (angle : TParameter)
  (qubit_support : option (list nat)) (add_pattern : option bool) :
  exists op g,
    AnalogRZ register angle qubit_support add_pattern = Ok op
    /\ has_generator op g
    /\ forall rho,
         denote rho g
         ==v axis_hamiltonian rho (- Rtrigo1.PI) AN register
               (support_of register qubit_support)
               (or_default true add_pattern).
Proof.
  rewrite AnalogRZ_Ok. do 2 eexists.
  split; [reflexivity|]. split; [reflexivity|].
  intros rho a. rewrite drive_generator_coefficients.
  unfold axis_hamiltonian, vadd, vscale.
  rewrite eval_PI, eval_lit. field.
Qed.

(** X11: when the amplitude omega of a generic drive has the value zero,
    the phase has no effect: the generator is [- delta N(i)] summed over the
    support plus the background, for every phase. *)
Theorem drive_without_amplitude_ignores_the_phase (register : Register)
  (duration omega delta phase : TParameter)
  (qubit_support : option (list nat)) (add_pattern : option bool) :
  ~ (literal_zero omega /\ literal_zero delta) ->
  exists op g,
    AnalogDrive register duration omega delta (Some phase) qubit_support
      add_pattern = Ok op
    /\ has_generator op g
    /\ forall rho,
         eval rho (Parameter_ omega) = 0%R ->
         denote rho g
         ==v axis_hamiltonian rho (- eval rho (Parameter_ delta)) AN register
               (support_of register qubit_support)
               (or_default true add_pattern).
Proof.
  intros Hnz. apply not_jointly_zero in Hnz.
  rewrite (AnalogDrive_Ok _ _ _ _ _ _ _ Hnz). do 2 eexists.
  split; [reflexivity|]. split; [reflexivity|].
  intros rho Hzero a. rewrite drive_generator_coefficients.
  unfold axis_hamiltonian, vadd, vscale. cbn [or_default].
  rewrite Hzero. field.
Qed.

(* ------------------------------------------------------------------ *)
(** ** The drive and the interaction operation *)

(** The drive terms alone: the three terms of each qubit of the support. *)
Definition drive_terms (omega delta phase : expr) (qubit_support : list nat)
  : block :=
  let half := Binary Div omega (lit 2) in
  add (map (fun i =>
              ((half * sympy.cos phase)%sym * X i
               - (half * sympy.sin phase)%sym * Y i
               - delta * N i)%blk) qubit_support).

Lemma drive_hamiltonian_splits (rho : env) (register : Register)
  (omega delta phase : expr) (qs : list nat) (add_pattern : bool) (a : atom) :
  denote rho (drive_hamiltonian register omega delta phase qs add_pattern) a
  = (denote rho (drive_terms omega delta phase qs) a
     + denote rho (background register add_pattern) a)%R.
Proof.
  unfold drive_hamiltonian, drive_terms, background, pattern_term. cbv zeta.
  destruct add_pattern, (rydberg_pattern_hamiltonian register);
    rewrite ?denote_Plus; unfold vadd; ring.
Qed.

(** X7: the generator of a generic drive is the generator of the
    interaction operation built on the same register with the same pattern
    flag, plus the drive terms of the qubits of the support. *)
Theorem drive_extends_the_interaction (register : Register)
  (duration duration' omega delta : TParameter) (phase : option TParameter)
  (qubit_support : option (list nat)) (add_pattern : option bool) :
  ~ (literal_zero omega /\ literal_zero delta) ->
  exists drive interaction gd gi,
    AnalogDrive register duration omega delta phase qubit_support add_pattern
    = Ok drive
    /\ AnalogInteraction register duration' add_pattern = Ok interaction
    /\ has_generator drive gd
    /\ has_generator interaction gi
    /\ forall rho a,
         denote rho gd a
         = (denote rho
              (drive_terms (Parameter_ omega) (Parameter_ delta)
                 (Parameter_ (or_default (TNumber (of_Z 0)) phase))
                 (support_of register qubit_support)) a
            + denote rho gi a)%R.
Proof.
  intros Hnz. apply not_jointly_zero in Hnz.
  rewrite (AnalogDrive_Ok _ _ _ _ _ _ _ Hnz), AnalogInteraction_Ok.
  do 4 eexists.
  split; [reflexivity|]. split; [reflexivity|].
  split; [reflexivity|]. split; [reflexivity|].
  intros rho a.
  rewrite (drive_generator_refines rho _ _ _ _ _ _ a).
  apply drive_hamiltonian_splits.
Qed.

(* ------------------------------------------------------------------ *)
(** ** The roles of the parameter maps *)

Definition roles (m : ParamMap) : list string := map fst m.

Lemma ParamMap_get_In (role : string) (m : ParamMap) :
  In role (roles m) -> exists e, ParamMap_get role m = Ok e.
Proof.
  unfold roles. induction m as [|[r e] m IH]; cbn [map fst In ParamMap_get].
  - intros [].
  - intros [->|H].
    + rewrite String.eqb_refl. eexists. reflexivity.
    + destruct (String.eqb r role); [eexists; reflexivity|exact (IH H)].
Qed.

Lemma ParamMap_get_not_In (role : string) (m : ParamMap) :
  ~ In role (roles m) -> ParamMap_get role m = Raise (KeyError role).
Proof.
  unfold roles. induction m as [|[r e] m IH]; cbn [map fst In ParamMap_get].
  - reflexivity.
  - intros H. destruct (String.eqb_spec r role) as [->|Hne].
    + exfalso. apply H. now left.
    + apply IH. intros Hin. apply H. now right.
Qed.

(** A parameter map that answers exactly for the given roles, each set
    once, and signals a lookup error for every other role. *)
Definition answers_exactly (m : ParamMap) (names : list string) : Prop :=
  roles m = names
  /\ NoDup names
  /\ forall role,
       (In role names -> exists e, ParamMap_get role m = Ok e)
       /\ (~ In role names -> ParamMap_get role m = Raise (KeyError role)).

Lemma answers_for_its_roles (m : ParamMap) :
  NoDup (roles m) -> answers_exactly m (roles m).
Proof.
  intros Hnd. split; [reflexivity|]. split; [exact Hnd|].
  intros role. split; [apply ParamMap_get_In|apply ParamMap_get_not_In].
Qed.

Lemma distinct_strings (names : list string) :
  (fix distinct (l : list string) : bool :=
     match l with
     | [] => true
     | s :: l' => negb (existsb (String.eqb s) l') && distinct l'
     end) names = true ->
  NoDup names.
Proof.
  induction names as [|s l IH]; intros H.
  - constructor.
  - apply andb_true_iff in H as [Hs Hl]. constructor.
    + intros Hin. apply negb_true_iff in Hs.
      assert (E : existsb (String.eqb s) l = true).
      { apply existsb_exists. exists s. split; [exact Hin|].
        apply String.eqb_refl. }
      rewrite E in Hs. discriminate Hs.
    + exact (IH Hl).
Qed.

(** X8: the parameter map of the interaction operation answers exactly for
    the roles [parameter] and [duration], and that of a generic drive
    exactly for [parameter], [duration], [alpha], [omega], [delta], [phase]
    and [h_norm], in this order and each set once; looking up any other
    role is a lookup error naming the role. *)
Theorem parameter_maps_answer_exactly_for_their_roles (register : Register)
  (duration omega delta : TParameter) (phase : option TParameter)
  (qubit_support : option (list nat)) (add_pattern : option bool) :
  (exists op m,
     AnalogInteraction register duration add_pattern = Ok op
     /\ attr_parameters op = Some m
     /\ answers_exactly m ["parameter"; "duration"])
  /\ (~ (literal_zero omega /\ literal_zero delta) ->
      exists op m,
        AnalogDrive register duration omega delta phase qubit_support
          add_pattern = Ok op
        /\ attr_parameters op = Some m
        /\ answers_exactly m
             ["parameter"; "duration"; "alpha"; "omega"; "delta"; "phase";
              "h_norm"]).
Proof.
  split.
  - rewrite AnalogInteraction_Ok. do 2 eexists.
    split; [reflexivity|]. split; [reflexivity|].
    apply answers_for_its_roles. apply distinct_strings. reflexivity.
  - intros Hnz. apply not_jointly_zero in Hnz.
    rewrite (AnalogDrive_Ok _ _ _ _ _ _ _ Hnz). do 2 eexists.
    split; [reflexivity|]. split; [reflexivity|].
    apply answers_for_its_roles. apply distinct_strings. reflexivity.
Qed.

(* ------------------------------------------------------------------ *)
(** ** Relations between the roles *)

(** X9: in every instance the generic constructor builds, the rotations
    among them, the value of the role [alpha] is the value of the role
    [parameter] (the scaled duration handed to the time-evolution
    primitive) times the value of the role [h_norm], and [h_norm] is never
    negative. *)
Theorem alpha_is_parameter_times_h_norm (self : Instance)
  (register : Register) (duration omega delta phase : TParameter)
  (qubit_support : option (list nat)) (add_pattern : bool) (op : Instance) :
  AnalogDrive_init self register duration omega delta phase qubit_support
    add_pattern = Ok op ->
  exists a p h,
    holds_role op "alpha" a
    /\ holds_role op "parameter" p
    /\ holds_role op "h_norm" h
    /\ handed_to_primitive op p
    /\ forall rho,
         eval rho a = (eval rho p * eval rho h)%R
         /\ (0 <= eval rho h)%R.
Proof.
  intros H. pose proof (AnalogDrive_init_inv _ _ _ _ _ _ _ _ _ H) as Hnz.
  rewrite (AnalogDrive_init_Ok _ _ _ _ _ _ _ _ Hnz) in H.
  injection H as <-. do 3 eexists.
  split; [eexists; split; reflexivity|].
  split; [eexists; split; reflexivity|].
  split; [eexists; split; reflexivity|].
  split; [reflexivity|].
  intros rho. rewrite eval_alpha, eval_scaled, eval_h_norm. split.
  - field.
  - apply sqrt_pos.
Qed.

(** X10: the duration never reaches the generator: two interaction
    operations, or two generic drives, that differ only in their duration
    have the same generator; and the angle of a rotation never reaches its
    generator either, it only sets the duration. *)
Theorem durations_and_angles_never_reach_the_generator (register : Register)
  (duration duration' angle angle' omega delta : TParameter)
  (phase : option TParameter) (qubit_support : option (list nat))
  (add_pattern : option bool) :
  fmap attr_generator (AnalogInteraction register duration add_pattern)
  = fmap attr_generator (AnalogInteraction register duration' add_pattern)
  /\ fmap attr_generator
       (AnalogDrive register duration omega delta phase qubit_support
          add_pattern)
     = fmap attr_generator
         (AnalogDrive register duration' omega delta phase qubit_support
            add_pattern)
  /\ fmap attr_generator
       (AnalogRX register angle qubit_support add_pattern)
     = fmap attr_generator
         (AnalogRX register angle' qubit_support add_pattern)
  /\ fmap attr_generator
       (AnalogRY register angle qubit_support add_pattern)
     = fmap attr_generator
         (AnalogRY register angle' qubit_support add_pattern)
  /\ fmap attr_generator
       (AnalogRZ register angle qubit_support add_pattern)
     = fmap attr_generator
         (AnalogRZ register angle' qubit_support add_pattern).
Proof.
  split; [|split; [|split; [|split]]].
  - now rewrite !AnalogInteraction_Ok.
  - destruct (eq_zero omega && eq_zero delta) eqn:E.
    + unfold AnalogDrive.
      now rewrite !(AnalogDrive_init_raises _ _ _ _ _ _ _ _ E).
    + now rewrite !(AnalogDrive_Ok _ _ _ _ _ _ _ E).
  - now rewrite !AnalogRX_Ok.
  - now rewrite !AnalogRY_Ok.
  - now rewrite !AnalogRZ_Ok.
Qed.


End Operations.

(* ------------------------------------------------------------------ *)
(** ** A two-qubit register, for running the constructors *)

(** A register given by its nodes, with an interaction term and with or
    without a pattern term. *)
Definition two_qubits : list nat := [0%nat; 1%nat].
Definition nodes_of (r : list nat) : list nat := r.
Definition interaction_of (r : list nat) : block := Opaque "interaction".
Definition pattern_of (r : list nat) : option block := Some (Opaque "pattern").
Definition no_pattern (r : list nat) : option block := None.

Definition Interaction := AnalogInteraction (list nat) interaction_of.
Definition Drive := AnalogDrive (list nat) nodes_of interaction_of.
Definition RX := AnalogRX (list nat) nodes_of interaction_of.
Definition RY := AnalogRY (list nat) nodes_of interaction_of.
Definition RZ := AnalogRZ (list nat) nodes_of interaction_of.

Lemma a_name_is_not_zero (s : string) : ~ literal_zero (TName s).
Proof.
  intros [n [[H|H] _]]; discriminate H.
Defined.

Lemma names_are_not_jointly_zero (s t : string) :
  ~ (literal_zero (TName s) /\ literal_zero (TName t)).
Proof.
  intros [H _]. exact (a_name_is_not_zero s H).
Defined.

Lemma zero_is_literal_zero : literal_zero (TNumber (of_Z 0)).
Proof.
  exists (of_Z 0). split; [now left|]. split; reflexivity.
Defined.

(** The drive with free omega, delta and phase on the two-qubit register
    with a pattern: its generator is the drive hamiltonian. *)
Lemma drive_generator_on_two_qubits :
  two_qubits <> []
  /\ ~ (literal_zero (TName "omega") /\ literal_zero (TName "delta"))
  /\ exists op g,
       Drive pattern_of two_qubits (TName "t") (TName "omega") (TName "delta")
         (Some (TName "phi")) (Some two_qubits) (Some true) = Ok op
       /\ has_generator op g
       /\ forall rho,
            denote rho g
            ==v denote rho
                  (drive_hamiltonian (list nat) interaction_of pattern_of
                     two_qubits (FreeVariable "omega") (FreeVariable "delta")
                     (FreeVariable "phi") two_qubits true).
Proof.
  assert (H1 : two_qubits <> []) by discriminate.
  pose proof (names_are_not_jointly_zero "omega" "delta") as H2.
  split; [exact H1|]. split; [exact H2|].
  exact (drive_generator_is_drive_hamiltonian (list nat) nodes_of
           interaction_of pattern_of two_qubits (TName "t") (TName "omega")
           (TName "delta") (TName "phi") two_qubits true H1 H2).
Defined.

(** The zero drive is rejected; a drive with a free omega is built. *)
Lemma zero_drive_is_rejected_free_drive_is_built :
  (literal_zero (TNumber (of_Z 0)) /\ literal_zero (TNumber (of_Z 0)))
  /\ Drive pattern_of two_qubits (TName "t") (TNumber (of_Z 0))
       (TNumber (of_Z 0)) None None None
     = Raise (ValueError "Parameters omega and delta cannot both be 0.")
  /\ free_or_compound (TName "omega")
  /\ exists op,
       Drive pattern_of two_qubits (TName "t") (TName "omega")
         (TNumber (of_Z 0)) None None None = Ok op.
Proof.
  pose proof (conj zero_is_literal_zero zero_is_literal_zero) as Hz.
  split; [exact Hz|]. split.
  - exact (proj1 (drive_rejects_exactly_the_zero_drive (list nat) nodes_of
                    interaction_of pattern_of two_qubits (TName "t")
                    (TNumber (of_Z 0)) (TNumber (of_Z 0)) None None None) Hz).
  - split; [exact I|].
    exact (proj2 (proj2 (drive_rejects_exactly_the_zero_drive (list nat)
                           nodes_of interaction_of pattern_of two_qubits
                           (TName "t") (TName "omega") (TNumber (of_Z 0))
                           None None None)) (or_introl I)).
Defined.

(** Every variant on the two-qubit register scales its duration. *)
Lemma variants_on_two_qubits_scale_their_duration :
  ~ (literal_zero (TName "omega") /\ literal_zero (TName "delta"))
  /\ evolves_for (FreeVariable "t")
       (Interaction pattern_of two_qubits (TName "t") None)
  /\ evolves_for (FreeVariable "t")
       (Drive pattern_of two_qubits (TName "t") (TName "omega")
          (TName "delta") None None None)
  /\ evolves_for (rotation_duration (TName "theta"))
       (RX pattern_of two_qubits (TName "theta") None None)
  /\ evolves_for (rotation_duration (TName "theta"))
       (RY pattern_of two_qubits (TName "theta") None None)
  /\ evolves_for (rotation_duration (TName "theta"))
       (RZ pattern_of two_qubits (TName "theta") None None).
Proof.
  pose proof (names_are_not_jointly_zero "omega" "delta") as Hnz.
  pose proof (every_variant_scales_its_duration (list nat) nodes_of
                interaction_of pattern_of two_qubits (TName "t")
                (TName "theta") (TName "omega") (TName "delta")
                None None None) as [Hi [Hd Hr]].
  split; [exact Hnz|]. split; [exact Hi|]. split; [exact (Hd Hnz)|exact Hr].
Defined.

(** The roles [h_norm] and [alpha] of a drive with free parameters. *)
Lemma h_norm_and_alpha_on_two_qubits :
  exists op,
    Drive pattern_of two_qubits (TName "t") (TName "omega") (TName "delta")
      None None None = Ok op
    /\ holds_role op "h_norm"
         (sympy.sqrt (FreeVariable "omega" ** lit 2
                      + FreeVariable "delta" ** lit 2)%sym)
    /\ holds_role op "alpha"
         (Binary Div
            (FreeVariable "t"
             * sympy.sqrt (FreeVariable "omega" ** lit 2
                           + FreeVariable "delta" ** lit 2))%sym
            (lit 1000)).
Proof.
  eexists. split; [reflexivity|].
  pose proof (drive_h_norm_and_alpha (list nat) nodes_of interaction_of
                pattern_of two_qubits (TName "t") (TName "omega")
                (TName "delta") None None None _ eq_refl) as [Hh [Ha _]].
  split; [exact Hh|exact Ha].
Defined.

(** Without a pattern the flag does not matter, on the two-qubit register. *)
Lemma flag_without_pattern_on_two_qubits :
  no_pattern two_qubits = None
  /\ fmap attr_generator
       (Drive no_pattern two_qubits (TName "t") (TName "omega")
          (TName "delta") None None (Some true))
     = fmap attr_generator
         (Drive no_pattern two_qubits (TName "t") (TName "omega")
            (TName "delta") None None (Some false))
  /\ fmap attr_generator
       (RZ no_pattern two_qubits (TName "theta") None (Some true))
     = fmap attr_generator
         (RZ no_pattern two_qubits (TName "theta") None (Some false))
  /\ exists op,
       Interaction pattern_of two_qubits (TName "t") (Some false) = Ok op
       /\ has_generator op (interaction_of two_qubits).
Proof.
  split; [reflexivity|].
  pose proof (proj1 (pattern_flag_without_pattern (list nat) nodes_of
                       interaction_of no_pattern two_qubits (TName "t")
                       (TName "theta") (TName "omega") (TName "delta")
                       None None) eq_refl (Some true) (Some false))
    as [_ [Hd [_ [_ Hz]]]].
  split; [exact Hd|]. split; [exact Hz|].
  exact (proj2 (pattern_flag_without_pattern (list nat) nodes_of
                  interaction_of pattern_of two_qubits (TName "t")
                  (TName "theta") (TName "omega") (TName "delta")
                  None None)).
Defined.

(** The rotations about X and Z keep the caller's angle and the derived
    alpha apart, and the generic constructor keeps an attribute it finds. *)
Lemma both_alphas_on_two_qubits :
  keeps_both_alphas (TName "theta")
    (RX pattern_of two_qubits (TName "theta") None None)
  /\ keeps_both_alphas (TName "theta")
       (RZ pattern_of two_qubits (TName "theta") None None)
  /\ exists op,
       AnalogDrive_init (list nat) nodes_of interaction_of pattern_of
         (set_alpha object (FreeVariable "theta")) two_qubits (TName "t")
         (TName "omega") (TName "delta") (TName "phi") None true = Ok op
       /\ attr_alpha op = Some (FreeVariable "theta").
Proof.
  pose proof (rotations_keep_both_alphas (list nat) nodes_of interaction_of
                pattern_of two_qubits (TName "theta") None None)
    as [Hx [_ [Hz Hkeep]]].
  split; [exact Hx|]. split; [exact Hz|].
  eexists. split; [reflexivity|].
  exact (Hkeep (set_alpha object (FreeVariable "theta")) (TName "t")
           (TName "omega") (TName "delta") (TName "phi") true _ eq_refl).
Defined.

(** The defaults of a drive with free omega and delta. *)
Lemma drive_defaults_on_two_qubits :
  ~ (literal_zero (TName "omega") /\ literal_zero (TName "delta"))
  /\ (exists op,
        Drive pattern_of two_qubits (TName "t") (TName "omega")
          (TName "delta") None None None = Ok op
        /\ holds_role op "phase" (lit 0)
        /\ attr_add_pattern op = Some true).
Proof.
  pose proof (names_are_not_jointly_zero "omega" "delta") as Hnz.
  split; [exact Hnz|].
  destruct (drive_defaults (list nat) nodes_of interaction_of pattern_of
              two_qubits (TName "t") (TName "omega") (TName "delta")
              None None None Hnz)
    as [[op [g [E [Hp _]]]] [op' [E' [Hf _]]]].
  exists op. split; [exact E|]. split; [exact Hp|].
  unfold Drive in *. rewrite E in E'. injection E' as <-. exact Hf.
Defined.

(** C8, as stated, fails: on the two-qubit register the role [parameter] of
    the pi drive of duration 1000 is the expression 1000 / 1000, whose value
    is 1 and not pi / 1000. *)
Lemma pi_drive_parameter_is_not_pi_over_1000 :
  exists op e,
    Drive no_pattern two_qubits (TNumber (of_Z 1000)) (TNumber PI)
      (TNumber (of_Z 0)) (Some (TNumber (of_Z 0))) (Some two_qubits) None
    = Ok op
    /\ holds_role op "parameter" e
    /\ e <> Binary Div (Constant PI) (lit 1000)
    /\ forall rho,
         eval rho e = 1%R /\ eval rho e <> (Rtrigo1.PI / 1000)%R.
Proof.
  do 2 eexists. split; [reflexivity|].
  split; [eexists; split; reflexivity|].
  split; [discriminate|].
  intros rho.
  assert (E : eval rho (scaled (Constant (of_Z 1000))) = 1%R).
  { rewrite eval_scaled. fold (lit 1000). rewrite eval_lit. lra. }
  split; [exact E|].
  change (eval rho (scaled (Constant (of_Z 1000))) <> (Rtrigo1.PI / 1000)%R).
  rewrite E. pose proof PI_4. lra.
Qed.

(* ------------------------------------------------------------------ *)
(** ** Running the constructors *)

(** The interaction operation on the two-qubit register with a pattern. *)
Example interaction_on_two_qubits :
  Interaction pattern_of two_qubits (TName "t") None
  = Ok (mkInstance (Some true) (Some (FreeVariable "t")) None
          (Some (Opaque "interaction" + Opaque "pattern")%blk)
          (Some (Binary Div (FreeVariable "t") (lit 1000)))
          (Some [("parameter", Binary Div (FreeVariable "t") (lit 1000));
                 ("duration", FreeVariable "t")])).
Proof. reflexivity. Qed.

(** The rotation about Z by [theta] on qubit 0: the drive terms on X and Y
    carry the amplitude 0 / 2, the term on N the detuning pi. *)
Example rotation_Z_on_one_qubit :
  fmap attr_generator
    (RZ no_pattern two_qubits (TName "theta") (Some [0%nat]) None)
  = Ok (Some (Binary Div (lit 0) (lit 2)
                * AddBlock [Unary Cos (lit 0) * X 0]
              - Binary Div (lit 0) (lit 2)
                * AddBlock [Unary Sin (lit 0) * Y 0]
              - Constant PI * AddBlock [N 0]
              + Opaque "interaction")%blk).
Proof. reflexivity. Qed.

Definition half_PI : number := mkNum 0 (1 # 2).

(** The signs of the drive: with omega = 2, delta = 3 and phase = pi/2 the
    coefficient of X(0) is 0, that of Y(0) is -1 and that of N(1) is -3; the
    interaction term enters with coefficient 1. *)
Example drive_signs_at_a_quarter_turn :
  exists op g,
    Drive no_pattern two_qubits (TName "t") (TNumber (of_Z 2))
      (TNumber (of_Z 3)) (Some (TNumber half_PI)) None None = Ok op
    /\ has_generator op g
    /\ forall rho,
         denote rho g (AX 0) = 0%R
         /\ denote rho g (AY 0) = (-1)%R
         /\ denote rho g (AN 1) = (-3)%R
         /\ denote rho g (AOpaque "interaction") = 1%R.
Proof.
  do 2 eexists. split; [reflexivity|]. split; [reflexivity|].
  intros rho.
  assert (Hh : num2R half_PI = (Rtrigo1.PI / 2)%R).
  { unfold num2R, half_PI, Q2R; simpl. lra. }
  assert (H2 : num2R (of_Z 2) = 2%R) by apply num2R_of_Z.
  assert (H3 : num2R (of_Z 3) = 3%R) by apply num2R_of_Z.
  unfold no_pattern, nodes_of, two_qubits, interaction_of.
  cbn [or_default Parameter_].
  unfold add, sympy.cos, sympy.sin, lit.
  cbn [map denote eval eval_unop eval_binop].
  unfold vadd, vsub, vscale, vunit, vzero.
  cbn [atom_eqb Nat.eqb]. rewrite ?String.eqb_refl.
  rewrite Hh, H2, H3, sin_PI2, cos_PI2.
  repeat split; lra.
Qed.

(* ------------------------------------------------------------------ *)
(** ** The further properties on the two-qubit register *)

(** The coefficients of the drive with free parameters on the support
    (0, 0, 1): qubit 0 counts twice, qubit 2 is outside. *)
Lemma drive_coefficients_with_a_repeated_qubit :
  ~ (literal_zero (TName "omega") /\ literal_zero (TName "delta"))
  /\ exists op g,
       Drive no_pattern two_qubits (TName "t") (TName "omega") (TName "delta")
         (Some (TName "phi")) (Some [0%nat; 0%nat; 1%nat]) (Some true) = Ok op
       /\ has_generator op g
       /\ forall rho,
            denote rho g (AX 0)
            = (2 * (rho "omega" / 2 * Rtrigo_def.cos (rho "phi")))%R
            /\ denote rho g (AN 1) = (- rho "delta")%R
            /\ denote rho g (AY 2) = 0%R.
Proof.
  pose proof (names_are_not_jointly_zero "omega" "delta") as Hnz.
  split; [exact Hnz|].
  destruct (drive_coefficients (list nat) nodes_of interaction_of no_pattern
              two_qubits (TName "t") (TName "omega") (TName "delta")
              (TName "phi") [0%nat; 0%nat; 1%nat] true Hnz)
    as [op [g [E [Hg Hc]]]].
  exists op, g. split; [exact E|]. split; [exact Hg|].
  intros rho. destruct (Hc rho) as [Hin [Hout _]].
  destruct (Hin 0%nat) as [Hx _]. destruct (Hin 1%nat) as [_ [_ Hn]].
  assert (H2 : ~ In 2%nat [0%nat; 0%nat; 1%nat])
    by (intros [H|[H|[H|[]]]]; discriminate H).
  destruct (Hout 2%nat H2) as [_ [Hy _]].
  cbn [Parameter_ eval] in Hx, Hn.
  rewrite Hx, Hn, Hy.
  unfold background, no_pattern, interaction_of.
  cbn [denote]. unfold vunit. cbn [atom_eqb].
  simpl. repeat split; lra.
Defined.

(** The drives on the supports (0, 1) and (1, 0) have the same
    hamiltonian. *)
Lemma drive_on_swapped_qubits :
  ~ (literal_zero (TName "omega") /\ literal_zero (TName "delta"))
  /\ Permutation [0%nat; 1%nat] [1%nat; 0%nat]
  /\ exists op op' g g',
       Drive pattern_of two_qubits (TName "t") (TName "omega") (TName "delta")
         None (Some [0%nat; 1%nat]) None = Ok op
       /\ Drive pattern_of two_qubits (TName "t") (TName "omega")
            (TName "delta") None (Some [1%nat; 0%nat]) None = Ok op'
       /\ has_generator op g /\ has_generator op' g'
       /\ forall rho, denote rho g ==v denote rho g'.
Proof.
  pose proof (names_are_not_jointly_zero "omega" "delta") as Hnz.
  pose proof (perm_swap 1%nat 0%nat (@nil nat)) as Hperm.
  split; [exact Hnz|]. split; [exact Hperm|].
  destruct (drive_support_order_is_immaterial (list nat) nodes_of
              interaction_of pattern_of two_qubits (TName "t")
              (TName "omega") (TName "delta") None
              [0%nat; 1%nat] [1%nat; 0%nat] None Hnz Hperm)
    as [op [op' [g [g' [E [E' [Hg [Hg' [Heq _]]]]]]]]].
  exists op, op', g, g'. repeat split; assumption.
Defined.

(** The drive on the two-qubit register extends its interaction
    operation. *)
Lemma drive_extends_the_interaction_on_two_qubits :
  ~ (literal_zero (TName "omega") /\ literal_zero (TName "delta"))
  /\ exists drive interaction gd gi,
       Drive pattern_of two_qubits (TName "t") (TName "omega") (TName "delta")
         (Some (TName "phi")) None None = Ok drive
       /\ Interaction pattern_of two_qubits (TName "s") None = Ok interaction
       /\ has_generator drive gd
       /\ has_generator interaction gi
       /\ forall rho a,
            denote rho gd a
            = (denote rho
                 (drive_terms (FreeVariable "omega") (FreeVariable "delta")
                    (FreeVariable "phi") two_qubits) a
               + denote rho gi a)%R.
Proof.
  pose proof (names_are_not_jointly_zero "omega" "delta") as Hnz.
  split; [exact Hnz|].
  exact (drive_extends_the_interaction (list nat) nodes_of interaction_of
           pattern_of two_qubits (TName "t") (TName "s") (TName "omega")
           (TName "delta") (Some (TName "phi")) None None Hnz).
Defined.

(** The interaction operation has no role [alpha]; the drive has one. *)
Lemma roles_on_two_qubits :
  ~ (literal_zero (TName "omega") /\ literal_zero (TName "delta"))
  /\ (exists op m,
        Interaction pattern_of two_qubits (TName "t") None = Ok op
        /\ attr_parameters op = Some m
        /\ ParamMap_get "alpha" m = Raise (KeyError "alpha"))
  /\ (exists op m e,
        Drive pattern_of two_qubits (TName "t") (TName "omega")
          (TName "delta") None None None = Ok op
        /\ attr_parameters op = Some m
        /\ ParamMap_get "alpha" m = Ok e
        /\ ParamMap_get "angle" m = Raise (KeyError "angle")).
Proof.
  pose proof (names_are_not_jointly_zero "omega" "delta") as Hnz.
  destruct (parameter_maps_answer_exactly_for_their_roles (list nat) nodes_of
              interaction_of pattern_of two_qubits (TName "t")
              (TName "omega") (TName "delta") None None None)
    as [[i [mi [Ei [Hmi [_ [_ Hi]]]]]] Hd].
  destruct (Hd Hnz) as [d [md [Ed [Hmd [_ [_ Hdr]]]]]].
  split; [exact Hnz|]. split.
  - exists i, mi. split; [exact Ei|]. split; [exact Hmi|].
    apply (proj2 (Hi "alpha")).
    intros [H|[H|[]]]; discriminate H.
  - assert (Hin : In "alpha" ["parameter"; "duration"; "alpha"; "omega";
                               "delta"; "phase"; "h_norm"])
      by (right; right; left; reflexivity).
    destruct (proj1 (Hdr "alpha") Hin) as [e He].
    exists d, md, e. split; [exact Ed|]. split; [exact Hmd|].
    split; [exact He|].
    apply (proj2 (Hdr "angle")).
    intros [H|[H|[H|[H|[H|[H|[H|[]]]]]]]]; discriminate H.
Defined.

(** In the rotation about X by [theta], alpha is parameter times h_norm. *)
Lemma alpha_relation_in_a_rotation :
  exists op a p h,
    AnalogDrive_init (list nat) nodes_of interaction_of pattern_of
      (set_alpha object (FreeVariable "theta")) two_qubits
      (TBasic (rotation_duration (TName "theta"))) (TNumber PI)
      (TNumber (of_Z 0)) (TNumber (of_Z 0)) None true = Ok op
    /\ holds_role op "alpha" a
    /\ holds_role op "parameter" p
    /\ holds_role op "h_norm" h
    /\ forall rho, eval rho a = (eval rho p * eval rho h)%R.
Proof.
  eexists.
  destruct (alpha_is_parameter_times_h_norm (list nat) nodes_of
              interaction_of pattern_of
              (set_alpha object (FreeVariable "theta")) two_qubits
              (TBasic (rotation_duration (TName "theta"))) (TNumber PI)
              (TNumber (of_Z 0)) (TNumber (of_Z 0)) None true _ eq_refl)
    as [a [p [h [Ha [Hp [Hh [_ Hv]]]]]]].
  exists a, p, h. split; [reflexivity|].
  split; [exact Ha|]. split; [exact Hp|]. split; [exact Hh|].
  intros rho. exact (proj1 (Hv rho)).
Defined.

(** A drive of amplitude 0 and free detuning, at a free phase. *)
Lemma detuning_drive_on_two_qubits :
  ~ (literal_zero (TNumber (of_Z 0)) /\ literal_zero (TName "delta"))
  /\ exists op g,
       Drive pattern_of two_qubits (TName "t") (TNumber (of_Z 0))
         (TName "delta") (Some (TName "phi")) None None = Ok op
       /\ has_generator op g
       /\ forall rho,
            denote rho g
            ==v axis_hamiltonian (list nat) interaction_of pattern_of rho
                  (- rho "delta") AN two_qubits two_qubits true.
Proof.
  assert (Hnz : ~ (literal_zero (TNumber (of_Z 0))
                   /\ literal_zero (TName "delta"))).
  { intros [_ H]. exact (a_name_is_not_zero "delta" H). }
  split; [exact Hnz|].
  destruct (drive_without_amplitude_ignores_the_phase (list nat) nodes_of
              interaction_of pattern_of two_qubits (TName "t")
              (TNumber (of_Z 0)) (TName "delta") (TName "phi") None None Hnz)
    as [op [g [E [Hg Hv]]]].
  exists op, g. split; [exact E|]. split; [exact Hg|].
  intros rho. apply (Hv rho). apply (eval_lit rho 0).
Defined.
